(** * Schema walker and filter validator of smart-api-common

    A shallow embedding of [src/src/helpers/utils/index.ts] and of the
    annotation layer [src/src/zod/extensions/index.ts].

    Schema nodes (zod types) are objects compared by identity, and lazy
    nodes may point back to any node, so a schema is a heap of nodes
    addressed by [nat] ids.  The traversals recurse through a mutable
    [WeakSet]; they are modelled with explicit state passing, with a fuel
    argument standing for the JS call stack (running out of fuel models a
    stack overflow), and with a ghost list of the ids whose shape is being
    walked (the current path), used only to report a re-entry into a node
    of the current path. *)

From Stdlib Require Import String Ascii List Bool Btauto Arith Lia ZArith DecimalString.
Import ListNotations.
Open Scope string_scope.
Open Scope list_scope.
Set Warnings "-register-all".

(** ** JS objects used as records

    A [Record<string, T>] built by assignments keeps its keys in insertion
    order, and assigning an existing key updates it in place. *)

Definition record (A : Type) := list (string * A).

Fixpoint assign {A} (k : string) (v : A) (r : record A) : record A :=
  match r with
  | [] => [(k, v)]
  | (k', v') :: r' => if String.eqb k k' then (k, v) :: r' else (k', v') :: assign k v r'
  end.

Fixpoint lookup {A} (k : string) (r : record A) : option A :=
  match r with
  | [] => None
  | (k', v') :: r' => if String.eqb k k' then Some v' else lookup k r'
  end.

Definition has_own {A} (r : record A) (k : string) : bool :=
  existsb (String.eqb k) (map fst r).

(** Whether [obj[key] = value] writes an own property of a plain object
    whose prototype chain reaches [Object.prototype]: the key
    ["__proto__"], unless already an own key, goes to the inherited
    [__proto__] setter, which makes an object value the prototype and
    ignores a primitive, writing no own property either way. *)
Definition sets_own {A} (key : string) (r : record A) : bool :=
  negb (String.eqb key "__proto__") || has_own r key.

(** [obj[key] = value] on such an object, seen through its own properties. *)
Definition js_set {A} (key : string) (value : A) (r : record A) : record A :=
  if sets_own key r then assign key value r else r.

(** ** Schema nodes *)

(** The description bag written by [filterable], [sortable], [queryable]
    and [path]; [None] is an absent key. *)
Record description := {
  d_filterable : option bool;
  d_sortable : option bool;
  d_queryable : option bool;
  d_path : option (list string)
}.

Definition no_description : description :=
  {| d_filterable := None; d_sortable := None; d_queryable := None; d_path := None |}.

(** The zod classes the walker distinguishes with [instanceof]. *)
Inductive kind :=
| ZodObject (shape : list (string * nat))  (** [schema.shape], in key order *)
| ZodArray (type : nat)                    (** [_def.type], the element schema *)
| ZodLazy (getter : option nat)            (** [_def.getter()]: the node it returns, or [None] when it throws *)
| ZodLeaf.                                 (** any other zod type (string, number, enum, ...) *)

Record node := {
  n_kind : kind;
  n_ext : bool;             (** built by [extendZodType]: carries [isFilterable], [path], ... *)
  n_desc : description
}.

Definition heap := list node.

(** Ids beyond the heap denote an unannotated leaf; well-formed schemas
    never refer to them. *)
Definition default_node : node :=
  {| n_kind := ZodLeaf; n_ext := false; n_desc := no_description |}.

Definition node_at (h : heap) (i : nat) : node := nth i h default_node.

Definition is_object (nd : node) : bool :=
  match n_kind nd with ZodObject _ => true | _ => false end.

Definition shape_of (nd : node) : list (string * nat) :=
  match n_kind nd with ZodObject s => s | _ => [] end.

(** [!!this.description?.[key]] *)
Definition truthy_flag (o : option bool) : bool :=
  match o with Some true => true | _ => false end.

Definition isFilterable (nd : node) : bool := truthy_flag (d_filterable (n_desc nd)).
Definition isSortable (nd : node) : bool := truthy_flag (d_sortable (n_desc nd)).
Definition isQueryable (nd : node) : bool := truthy_flag (d_queryable (n_desc nd)).
(** An array, even an empty one, is truthy. *)
Definition isPath (nd : node) : bool :=
  match d_path (n_desc nd) with Some _ => true | None => false end.

(** ** Annotation layer (extendZodType)

    Each annotation returns a new extended node whose description is the
    old one with one key overwritten. *)

Definition filterable (value : bool) (nd : node) : node :=
  {| n_kind := n_kind nd; n_ext := true;
     n_desc := {| d_filterable := Some value; d_sortable := d_sortable (n_desc nd);
                  d_queryable := d_queryable (n_desc nd); d_path := d_path (n_desc nd) |} |}.

Definition sortable (value : bool) (nd : node) : node :=
  {| n_kind := n_kind nd; n_ext := true;
     n_desc := {| d_filterable := d_filterable (n_desc nd); d_sortable := Some value;
                  d_queryable := d_queryable (n_desc nd); d_path := d_path (n_desc nd) |} |}.

Definition queryable (value : bool) (nd : node) : node :=
  {| n_kind := n_kind nd; n_ext := true;
     n_desc := {| d_filterable := d_filterable (n_desc nd); d_sortable := d_sortable (n_desc nd);
                  d_queryable := Some value; d_path := d_path (n_desc nd) |} |}.

Definition path (value : list string) (nd : node) : node :=
  {| n_kind := n_kind nd; n_ext := true;
     n_desc := {| d_filterable := d_filterable (n_desc nd); d_sortable := d_sortable (n_desc nd);
                  d_queryable := d_queryable (n_desc nd); d_path := Some value |} |}.

(** [z.string()], [z.object(shape)], ... of the extended [z]. *)
Definition ext_leaf : node := {| n_kind := ZodLeaf; n_ext := true; n_desc := no_description |}.
Definition ext_object (shape : list (string * nat)) : node :=
  {| n_kind := ZodObject shape; n_ext := true; n_desc := no_description |}.
Definition ext_array (type : nat) : node :=
  {| n_kind := ZodArray type; n_ext := true; n_desc := no_description |}.
(** [z.lazy] comes from the plain zod namespace and is not extended. *)
Definition lazy_node (getter : option nat) : node :=
  {| n_kind := ZodLazy getter; n_ext := false; n_desc := no_description |}.

(** ** Run results of the traversals *)

Inductive run (A : Type) :=
| Ok (a : A)
| OutOfFuel
| Revisit (n : nat).
Arguments Ok {A} a.
Arguments OutOfFuel {A}.
Arguments Revisit {A} n.

Definition bind {A B} (m : run A) (k : A -> run B) : run B :=
  match m with
  | Ok a => k a
  | OutOfFuel => OutOfFuel
  | Revisit n => Revisit n
  end.

Notation "x <- m ;; k" := (bind m (fun x => k)) (at level 61, m at next level, right associativity).

Definition mem (n : nat) (l : list nat) : bool := existsb (Nat.eqb n) l.

(** Capability trees: [true] or a nested record. *)
Inductive tree :=
| TTrue
| TObj (r : record tree).

Definition visited_set := list nat.

(** [for (const [key, value] of Object.entries(schema.shape)) { ... }]: the
    loop threads the state of its body through the entries in order. *)
Fixpoint loop_entries {S : Type} (body : string * nat -> S -> run S)
  (entries : list (string * nat)) (s : S) : run S :=
  match entries with
  | [] => Ok s
  | e :: rest => s' <- body e s ;; loop_entries body rest s'
  end.

(** [const nested = ...; if (Object.keys(nested).length) acc[key] = nested;] *)
Definition put_nested (key : string) (nested : record tree) (acc : record tree) : record tree :=
  if Nat.ltb 0 (length nested) then js_set key (TObj nested) acc else acc.

(** ** getFilterable *)

(** The loop body of [getFilterable]; [go c visited] is the recursive call
    [getFilterable(c, visited)]. *)
Definition getFilterable_entry
  (go : nat -> visited_set -> run (record tree * visited_set)) (h : heap)
  (e : string * nat) (st : record tree * visited_set) : run (record tree * visited_set) :=
  let '(key, v) := e in
  let '(filterable, visited) := st in
  let value := node_at h v in
  (* if (!visited.has(c)) { nested = getFilterable(c, visited); ... } continue; *)
  let descend (c : nat) :=
    if mem c visited then Ok (filterable, visited)
    else r <- go c visited ;; Ok (put_nested key (fst r) filterable, snd r) in
  (* the checks after the [ZodLazy] block *)
  let leaf :=
    if n_ext value && isFilterable value then Ok (js_set key TTrue filterable, visited)
    else Ok (filterable, visited) in
  let fallthrough :=
    match n_kind value with
    | ZodObject _ => descend v
    | ZodArray t => if is_object (node_at h t) then descend t else leaf
    | _ => leaf
    end in
  match n_kind value with
  | ZodLazy None => Ok (filterable, visited)            (* catch (e) { continue; } *)
  | ZodLazy (Some lv) =>
      match n_kind (node_at h lv) with
      | ZodObject _ => descend lv
      | ZodArray t => if is_object (node_at h t) then descend t else fallthrough
      | _ => fallthrough
      end
  | _ => fallthrough
  end.

(** [getFilterable(schema, visited)].  The root is a [ZodObject] (its
    TypeScript type); for any other node the shape is taken as empty. *)
Fixpoint getFilterable (fuel : nat) (h : heap) (schema : nat) (visited : visited_set)
  (stack : list nat) : run (record tree * visited_set) :=
  match fuel with
  | O => OutOfFuel
  | S f =>
      if mem schema visited then Ok ([], visited)
      else if mem schema stack then Revisit schema
      else loop_entries
             (getFilterable_entry (fun c V => getFilterable f h c V (schema :: stack)) h)
             (shape_of (node_at h schema)) ([], schema :: visited)
  end.

(** ** getSortable *)

Definition getSortable_entry (go : nat -> run (record tree)) (h : heap)
  (e : string * nat) (sortable : record tree) : run (record tree) :=
  let '(key, v) := e in
  let value := node_at h v in
  if is_object value then
    nested <- go v ;; Ok (put_nested key nested sortable)
  else if n_ext value && isSortable value then Ok (js_set key TTrue sortable)
  else Ok sortable.

Fixpoint getSortable (fuel : nat) (h : heap) (schema : nat) (stack : list nat)
  : run (record tree) :=
  match fuel with
  | O => OutOfFuel
  | S f =>
      if mem schema stack then Revisit schema
      else loop_entries (getSortable_entry (fun c => getSortable f h c (schema :: stack)) h)
             (shape_of (node_at h schema)) []
  end.

(** ** getQueryable *)

(** [for (const p of path) setNestedKey(queryable, [p], true);] *)
Definition set_aliases (ps : list string) (queryable : record tree) : record tree :=
  fold_left (fun acc p => js_set p TTrue acc) ps queryable.

Definition getQueryable_entry (go : nat -> run (record tree)) (h : heap)
  (e : string * nat) (queryable : record tree) : run (record tree) :=
  let '(key, v) := e in
  let value := node_at h v in
  if is_object value then
    nested <- go v ;; Ok (put_nested key nested queryable)
  else if n_ext value && isQueryable value then
    (* 'path' in value && typeof value.path === 'function' *)
    if n_ext value then
      match d_path (n_desc value) with
      | Some ps => Ok (set_aliases ps queryable)
      | None => Ok (js_set key TTrue queryable)
      end
    else Ok (js_set key TTrue queryable)
  else Ok queryable.

Fixpoint getQueryable (fuel : nat) (h : heap) (schema : nat) (stack : list nat)
  : run (record tree) :=
  match fuel with
  | O => OutOfFuel
  | S f =>
      if mem schema stack then Revisit schema
      else loop_entries (getQueryable_entry (fun c => getQueryable f h c (schema :: stack)) h)
             (shape_of (node_at h schema)) []
  end.

(** ** getPath *)

(** [segments.join('.')] *)
Definition join (l : list string) : string := String.concat "." l.

Fixpoint split_dot_aux (s cur : string) : list string :=
  match s with
  | EmptyString => [cur]
  | String c s' =>
      if Ascii.eqb c "."%char then cur :: split_dot_aux s' ""
      else split_dot_aux s' (cur ++ String c "")%string
  end.

(** [s.split('.')] *)
Definition split_dot (s : string) : list string := split_dot_aux s "".

(** [s.split('.').pop()] *)
Definition last_segment (s : string) : string := last (split_dot s) "".

Definition getPath_entry
  (go : nat -> list string -> visited_set -> run (record string * visited_set)) (h : heap)
  (parentKey : list string) (e : string * nat) (st : record string * visited_set)
  : run (record string * visited_set) :=
  let '(key, v) := e in
  let '(paths, visited) := st in
  let fullKeyPath := parentKey ++ [key] in
  let short (nestedKey : string) := (key ++ "." ++ last_segment nestedKey)%string in
  (* [if (!visited.has(c)) { nested = getPath(c, fullKeyPath, visited); nested.forEach(merge) }] *)
  let descend (c : nat) (merge : record string -> string * string -> record string) :=
    if mem c visited then Ok (paths, visited)
    else r <- go c fullKeyPath visited ;; Ok (fold_left merge (fst r) paths, snd r) in
  (* lazy object: [paths[key.last] = nestedPath] *)
  let merge_lazy_object p (kv : string * string) :=
    js_set (short (fst kv)) (snd kv) p in
  (* lazy array: [paths[key.last] = nestedPath; paths[nestedPath] = nestedPath] *)
  let merge_lazy_array p (kv : string * string) :=
    js_set (snd kv) (snd kv) (js_set (short (fst kv)) (snd kv) p) in
  (* object: [paths[nestedKey] = nestedPath; paths[key.last] = nestedPath] *)
  let merge_object p (kv : string * string) :=
    js_set (short (fst kv)) (snd kv) (js_set (fst kv) (snd kv) p) in
  (* array: the three assignments *)
  let merge_array p (kv : string * string) :=
    js_set (snd kv) (snd kv) (js_set (short (fst kv)) (snd kv) (js_set (fst kv) (snd kv) p)) in
  let value := node_at h v in
  let leaf :=
    (* typeof v.isPath === 'function' && v.isPath() *)
    if n_ext value && isPath value then
      match d_path (n_desc value) with
      | Some pathValue =>
          Ok (js_set (join fullKeyPath) (join (parentKey ++ pathValue)) paths, visited)
      | None => Ok (paths, visited)
      end
    else Ok (js_set key (join fullKeyPath) paths, visited) in
  let fallthrough :=
    match n_kind value with
    | ZodObject _ => descend v merge_object
    | ZodArray t => if is_object (node_at h t) then descend t merge_array else leaf
    | _ => leaf
    end in
  match n_kind value with
  | ZodLazy None => Ok (paths, visited)                 (* catch (e) { continue; } *)
  | ZodLazy (Some lv) =>
      match n_kind (node_at h lv) with
      | ZodObject _ => descend lv merge_lazy_object
      | ZodArray t => if is_object (node_at h t) then descend t merge_lazy_array else fallthrough
      | _ => fallthrough
      end
  | _ => fallthrough
  end.

(** [getPath(schema, parentKey, visited)] *)
Fixpoint getPath (fuel : nat) (h : heap) (schema : nat) (parentKey : list string)
  (visited : visited_set) (stack : list nat) : run (record string * visited_set) :=
  match fuel with
  | O => OutOfFuel
  | S f =>
      if mem schema visited then Ok ([], visited)
      else if mem schema stack then Revisit schema
      else loop_entries
             (getPath_entry (fun c pk V => getPath f h c pk V (schema :: stack)) h parentKey)
             (shape_of (node_at h schema)) ([], schema :: visited)
  end.

(** ** JS values and the zod checks of the operator table *)

(** Client-supplied values.  Numbers are the non-NaN numbers and dates the
    valid [Date] objects; the value of a number plays no role here. *)
Inductive jsval :=
| JUndefined
| JNull
| JBool (b : bool)
| JNum (z : Z)
| JStr (s : string)
| JDate
| JArr (items : list jsval)
| JObj (props : list (string * jsval)).

(** The zod issue codes the operator table can raise. *)
Inductive issue :=
| InvalidType
| InvalidUnion
| TooSmall
| TooBig
| Custom (message : string).

Inductive zod :=
| ZString | ZNumber | ZBoolean | ZNull | ZDate | ZAny
| ZUnion (options : list zod)
| ZArrayOf (element : zod)
| ZTuple (items : list zod)
| ZRefine (inner : zod) (check : jsval -> bool) (message : string).

(** [schema.safeParse(value)]: the issues raised, [[]] on success.  A union
    succeeds with its first matching option; a tuple without rest reports a
    short array alone and a long array together with its items' issues; a
    refinement runs only once its inner schema accepted the value. *)
Fixpoint zparse (z : zod) (v : jsval) : list issue :=
  match z with
  | ZString => match v with JStr _ => [] | _ => [InvalidType] end
  | ZNumber => match v with JNum _ => [] | _ => [InvalidType] end
  | ZBoolean => match v with JBool _ => [] | _ => [InvalidType] end
  | ZNull => match v with JNull => [] | _ => [InvalidType] end
  | ZDate => match v with JDate => [] | _ => [InvalidType] end
  | ZAny => []
  | ZUnion opts =>
      let fix any_ok (os : list zod) : bool :=
        match os with
        | [] => false
        | o :: os' => match zparse o v with [] => true | _ => any_ok os' end
        end in
      if any_ok opts then [] else [InvalidUnion]
  | ZArrayOf el =>
      match v with
      | JArr items => flat_map (zparse el) items
      | _ => [InvalidType]
      end
  | ZTuple zs =>
      let fix items_issues (zs : list zod) (items : list jsval) : list issue :=
        match zs, items with
        | z1 :: zs', it :: items' => zparse z1 it ++ items_issues zs' items'
        | _, _ => []
        end in
      match v with
      | JArr items =>
          if Nat.ltb (length items) (length zs) then [TooSmall]
          else (if Nat.ltb (length zs) (length items) then [TooBig] else [])
               ++ items_issues zs items
      | _ => [InvalidType]
      end
  | ZRefine inner check message =>
      match zparse inner v with
      | [] => if check v then [] else [Custom message]
      | iss => iss
      end
  end.

(** [s.includes('%')] *)
Definition has_percent (s : string) : bool :=
  existsb (fun c => Ascii.eqb c "%"%char) (list_ascii_of_string s).

Definition no_percent (v : jsval) : bool :=
  match v with JStr s => negb (has_percent s) | _ => true end.

Definition percent_message : string := "Value must not contain '%' character".

Definition scalar_eq : zod := ZUnion [ZString; ZNumber; ZBoolean; ZNull; ZDate].
Definition comparable : zod := ZUnion [ZNumber; ZDate; ZString].
Definition like_string : zod := ZRefine ZString no_percent percent_message.

(** [sequelizeOperatorValidators], in declaration order. *)
Definition sequelizeOperatorValidators : list (string * zod) := [
  ("eq", scalar_eq); ("ne", scalar_eq);
  ("gt", comparable); ("gte", comparable); ("lt", comparable); ("lte", comparable);
  ("in", ZArrayOf ZAny); ("notIn", ZArrayOf ZAny);
  ("like", like_string); ("notLike", like_string);
  ("iLike", like_string); ("notILike", like_string);
  ("between", ZTuple [ZAny; ZAny]); ("notBetween", ZTuple [ZAny; ZAny]);
  ("is", ZUnion [ZNull; ZBoolean]);
  ("not", ZUnion [ZString; ZNumber; ZBoolean; ZNull]);
  ("or", ZArrayOf ZAny); ("and", ZArrayOf ZAny);
  ("startsWith", ZString); ("endsWith", ZString); ("substring", ZString)
].

(** Properties every plain object inherits from [Object.prototype]. *)
Definition object_prototype_keys : list string := [
  "constructor"; "__defineGetter__"; "__defineSetter__"; "hasOwnProperty";
  "__lookupGetter__"; "__lookupSetter__"; "isPrototypeOf"; "propertyIsEnumerable";
  "toString"; "valueOf"; "__proto__"; "toLocaleString"
].

(** The value of [sequelizeOperatorValidators[key]]. *)
Inductive validator_slot :=
| OwnSchema (z : zod)      (** an operator of the table *)
| Inherited                (** a function (or the prototype) inherited from [Object.prototype] *)
| Undefined.

Definition validator_at (key : string) : validator_slot :=
  match lookup key sequelizeOperatorValidators with
  | Some z => OwnSchema z
  | None => if existsb (String.eqb key) object_prototype_keys then Inherited else Undefined
  end.

Definition slot_truthy (sl : validator_slot) : bool :=
  match sl with Undefined => false | _ => true end.

(** JS completions: a returned value or a thrown exception. *)
Inductive exn :=
| Error (message : string)
| TypeError (message : string).

Inductive completion (A : Type) :=
| Normal (a : A)
| Thrown (e : exn).
Arguments Normal {A} a.
Arguments Thrown {A} e.

(** The result tuples: [[true, null]] or [[null, error]]. *)
Inductive error_value :=
| ErrString (s : string)
| ErrZod (issues : list issue).

Inductive result_tuple :=
| Success                          (** [[true, null]] *)
| Failure (err : error_value).     (** [[null, err]] *)

(** [validateOperatorInput(operator, value)].  An inherited slot is not a
    zod schema: [schema.parse] is not a function, and in the catch block
    [err.errors] is undefined, so [.map] throws a [TypeError]. *)
Definition validateOperatorInput (operator : string) (value : jsval) : completion result_tuple :=
  match validator_at operator with
  | Undefined => Thrown (Error ("Unsupported operator: " ++ operator)%string)
  | Inherited => Thrown (TypeError "Cannot read properties of undefined (reading 'map')")
  | OwnSchema schema =>
      match zparse schema value with
      | [] => Normal Success
      | issues => Normal (Failure (ErrZod issues))
      end
  end.

(** ** validateOptions *)

(** The object [nestedToDotObject] builds from [{}]: its own properties,
    and whether its prototype has been set to [null]. *)
Record plain_object := {
  own : record jsval;
  null_proto : bool
}.

Definition empty_object : plain_object := {| own := []; null_proto := false |}.

(** [result[key] = value] in [nestedToDotObject], where [value] is never a
    plain object or a [Date].  While the prototype chain reaches
    [Object.prototype], the key ["__proto__"] (not an own key) goes to the
    inherited setter: [null] becomes the prototype, an array becomes the
    prototype (its own keys are indexes, so [hasOwnProperty] and the setter
    are still found through it), a primitive is ignored.  Once the
    prototype is [null] there is no setter, and ["__proto__"] is an
    ordinary key. *)
Definition set_prop (key : string) (value : jsval) (o : plain_object) : plain_object :=
  if String.eqb key "__proto__" && negb (has_own (own o) key) && negb (null_proto o) then
    match value with
    | JNull => {| own := own o; null_proto := true |}
    | _ => o
    end
  else {| own := assign key value (own o); null_proto := null_proto o |}.

(** [nestedToDotObject(obj)]: one level of flattening.  A [Date] is an
    object with no own keys, so it contributes nothing. *)
Definition nestedToDotObject (obj : list (string * jsval)) : plain_object :=
  fold_left
    (fun result (kv : string * jsval) =>
       let '(key, value) := kv in
       match value with
       | JObj props =>
           fold_left (fun r (nkv : string * jsval) =>
                        set_prop (key ++ "." ++ fst nkv)%string (snd nkv) r) props result
       | JDate => result
       | _ => set_prop key value result
       end)
    obj empty_object.

(** Whether [o.hasOwnProperty] is [Object.prototype.hasOwnProperty]: an own
    field of that name holds a JSON value, and a [null] prototype has no
    such method. *)
Definition hasOwnProperty_callable (o : plain_object) : bool :=
  negb (has_own (own o) "hasOwnProperty" || null_proto o).

Definition hasOwnProperty_error : exn :=
  TypeError "nestedFilterMap.hasOwnProperty is not a function".

(** [nestedFilterMap.hasOwnProperty(key)] *)
Definition hasOwnProperty_call (o : plain_object) (key : string) : completion bool :=
  if hasOwnProperty_callable o then Normal (has_own (own o) key) else Thrown hasOwnProperty_error.

Definition index_keys (n : nat) : list string :=
  map (fun i => NilZero.string_of_uint (Nat.to_uint i)) (seq 0 n).

(** [Object.keys(value)]; a string has one key per character. *)
Definition object_keys (v : jsval) : completion (list string) :=
  match v with
  | JUndefined | JNull => Thrown (TypeError "Cannot convert undefined or null to object")
  | JBool _ | JNum _ | JDate => Normal []
  | JStr s => Normal (index_keys (String.length s))
  | JArr items => Normal (index_keys (length items))
  | JObj props => Normal (map fst props)
  end.

Definition invalid_key (key : string) : result_tuple :=
  Failure (ErrString ("Invalid key: " ++ key)%string).

Fixpoint validateOptions_loop (nestedFilterMap : plain_object)
  (entries : list (string * jsval)) : completion result_tuple :=
  match entries with
  | [] => Normal Success
  | (key, value) :: rest =>
      match hasOwnProperty_call nestedFilterMap key with
      | Thrown e => Thrown e
      | Normal owned =>
      if negb owned && negb (slot_truthy (validator_at key)) then
        Normal (invalid_key key)
      else if slot_truthy (validator_at key) then
        match validateOperatorInput key value with
        | Thrown e => Thrown e
        | Normal (Failure err) => Normal (Failure err)     (* if (err) return [null, err]; *)
        | Normal Success => validateOptions_loop nestedFilterMap rest
        end
      else
        match object_keys value with
        | Thrown e => Thrown e
        | Normal ks =>
            if Nat.ltb 0 (length ks) then
              (* Object.keys(value).forEach((k) => { if (...) return [null, ...]; }):
                 the callback's return value is discarded by forEach *)
              let _ := map (fun k => if slot_truthy (validator_at k) then None
                                     else Some (invalid_key k)) ks in
              validateOptions_loop nestedFilterMap rest
            else
              match hasOwnProperty_call nestedFilterMap key with
              | Thrown e => Thrown e
              | Normal false => Normal (invalid_key key)
              | Normal true => validateOptions_loop nestedFilterMap rest
              end
        end
      end
  end.

(** [validateOptions(clientFilter, filterMap)]; both objects are given by
    their [Object.entries]. *)
Definition validateOptions (clientFilter : list (string * jsval))
  (filterMap : list (string * jsval)) : completion result_tuple :=
  validateOptions_loop (nestedToDotObject filterMap) clientFilter.

(** ** dotToNestedObject and setNestedKey *)

(** A parameter [value = true]: the default replaces an absent argument
    and an explicit [undefined] alike. *)
Definition default_true (value : jsval) : jsval :=
  match value with JUndefined => JBool true | v => v end.

(** [dotToNestedObject(dotString, value)]: the segments of [dotString],
    innermost first, each wrap the accumulator in a one-key object (a
    computed key, so ["__proto__"] is an own key there). *)
Definition dotToNestedObject (dotString : string) (value : jsval) : jsval :=
  if String.eqb dotString "" then JObj []
  else fold_left (fun acc key => JObj [(key, acc)]) (rev (split_dot dotString)) (default_true value).

(** [value[path[0]][path[1]]...] through own properties of plain objects. *)
Fixpoint get_in (path : list string) (v : jsval) : option jsval :=
  match path with
  | [] => Some v
  | key :: rest =>
      match v with
      | JObj props => match lookup key props with Some v' => get_in rest v' | None => None end
      | _ => None
      end
  end.

(** JS truthiness ([NaN] is not a [jsval]). *)
Definition truthy (v : jsval) : bool :=
  match v with
  | JUndefined | JNull => false
  | JBool b => b
  | JNum z => negb (Z.eqb z 0)
  | JStr s => negb (String.eqb s "")
  | JDate | JArr _ | JObj _ => true
  end.

(** [current[key]] read on a plain object. *)
Inductive prop_read :=
| OwnValue (v : jsval)
| InheritedValue           (** a property of [Object.prototype]: a function, or the prototype itself *)
| NoValue.                 (** [undefined] *)

Definition read_prop (current : record jsval) (key : string) : prop_read :=
  match lookup key current with
  | Some v => OwnValue v
  | None => if existsb (String.eqb key) object_prototype_keys then InheritedValue else NoValue
  end.

(** The effect of [setNestedKey] on the object it is given, an object tree
    without shared sub-objects.  When the walk reaches a value that is not a
    plain object of that tree (an inherited property, or a truthy string,
    number, boolean, array or [Date]), the remaining writes go to that value
    (or throw, in strict mode, on a primitive); that continuation is not
    modelled and is reported as [LeavesObject]. *)
Inductive set_outcome :=
| SetDone (obj : record jsval)
| LeavesObject.

(** [current[key] = true] on a plain object: assigning a primitive through
    the inherited [__proto__] setter is ignored. *)
Definition set_true (key : string) (current : record jsval) : record jsval :=
  js_set key (JBool true) current.

(** The loop of [setNestedKey] from [current], with [key :: rest] the
    remaining path: [if (!current[key]) current[key] = {}; current = current[key];]
    for every key but the last, then [current[last] = value]. *)
Fixpoint set_nested_from (current : record jsval) (key : string) (rest : list string)
  : set_outcome :=
  match rest with
  | [] => SetDone (set_true key current)
  | key' :: rest' =>
      let into (o : record jsval) :=
        match set_nested_from o key' rest' with
        | SetDone o' => SetDone (assign key (JObj o') current)
        | LeavesObject => LeavesObject
        end in
      match read_prop current key with
      | OwnValue (JObj o) => into o
      | OwnValue v => if truthy v then LeavesObject else into []
      | InheritedValue => LeavesObject
      | NoValue => into []
      end
  end.

(** [setNestedKey(obj, path, true)]; with an empty path the last key is
    [path[-1]], that is [undefined], written as the key ["undefined"]. *)
Definition setNestedKey (obj : record jsval) (path : list string) : set_outcome :=
  match path with
  | [] => SetDone (set_true "undefined" obj)
  | key :: rest => set_nested_from obj key rest
  end.

(** ** The entries validateOptions lets through *)

(** A [clientFilter] entry that [validateOptions] passes over: an operator
    of the table with an operand its schema accepts, or a key of the
    flattened field map that is not a property of the table, with a value
    that is neither [null] nor [undefined]. *)
Definition entry_accepted (nestedFilterMap : plain_object) (e : string * jsval) : bool :=
  let '(key, value) := e in
  match validator_at key with
  | OwnSchema z => match zparse z value with [] => true | _ => false end
  | Inherited => false
  | Undefined =>
      has_own (own nestedFilterMap) key && match value with JUndefined | JNull => false | _ => true end
  end.

(** ** Measures and well-formedness *)

(** The ids of the heap not yet in [visited]. *)
Definition unvisited (h : heap) (visited : visited_set) : nat :=
  length (filter (fun i => negb (mem i visited)) (seq 0 (length h))).

(** A [z.object({...})] receives nodes that already exist: every entry of a
    shape was built before the object.  Lazy getters may still return any
    node, so cycles go through [z.lazy]. *)
Definition shape_built_before (h : heap) : Prop :=
  forall i k c, In (k, c) (shape_of (node_at h i)) -> c < i.



(** The child a composite entry of [getFilterable] recurses into: a
    [ZodObject], the element of an array of objects, or the same reached
    through a lazy getter that does not throw. *)
Definition composite_child (h : heap) (v : nat) : option nat :=
  let array_elem (nd : node) :=
    match n_kind nd with
    | ZodArray t => if is_object (node_at h t) then Some t else None
    | _ => None
    end in
  let direct :=
    match n_kind (node_at h v) with
    | ZodObject _ => Some v
    | _ => array_elem (node_at h v)
    end in
  match n_kind (node_at h v) with
  | ZodLazy (Some lv) =>
      match n_kind (node_at h lv) with
      | ZodObject _ => Some lv
      | _ => match array_elem (node_at h lv) with Some t => Some t | None => direct end
      end
  | ZodLazy None => None
  | _ => direct
  end.

(** ** The operator table of the specification *)

(** The operator vocabulary, as the specification lists it. *)
Definition operator_vocabulary : list string := [
  "eq"; "ne"; "gt"; "gte"; "lt"; "lte"; "in"; "notIn"; "like"; "notLike";
  "iLike"; "notILike"; "between"; "notBetween"; "is"; "not"; "or"; "and";
  "startsWith"; "endsWith"; "substring"
].

Definition like_operators : list string := ["like"; "notLike"; "iLike"; "notILike"].

Definition one_of (op : string) (ops : list string) : bool := existsb (String.eqb op) ops.

(** The expected operand shape of each operator, after the specification's
    table (a date is a valid [Date]). *)
Definition conforms (op : string) (v : jsval) : bool :=
  if one_of op ["eq"; "ne"] then
    match v with JStr _ | JNum _ | JBool _ | JNull | JDate => true | _ => false end
  else if one_of op ["gt"; "gte"; "lt"; "lte"] then
    match v with JNum _ | JDate | JStr _ => true | _ => false end
  else if one_of op ["in"; "notIn"; "or"; "and"] then
    match v with JArr _ => true | _ => false end
  else if one_of op like_operators then
    match v with JStr s => negb (has_percent s) | _ => false end
  else if one_of op ["between"; "notBetween"] then
    match v with JArr items => Nat.eqb (length items) 2 | _ => false end
  else if one_of op ["is"] then
    match v with JNull | JBool _ => true | _ => false end
  else if one_of op ["not"] then
    match v with JStr _ | JNum _ | JBool _ | JNull => true | _ => false end
  else if one_of op ["startsWith"; "endsWith"; "substring"] then
    match v with JStr _ => true | _ => false end
  else false.

(** The value [getPath] gives a leaf of the root at [key]: its key, or
    its alias joined with '.' when it declares one. *)
Definition path_leaf_target (h : heap) (key : string) (v : nat) : string :=
  let value := node_at h v in
  if n_ext value && isPath value then
    match d_path (n_desc value) with Some ps => join ps | None => key end
  else key.

(** ** Helpers of the proofs and example schemas *)

(** A call that, from any visited set above [V0], returns normally with a
    larger visited set. *)
Definition grows_from {A B : Type} (V0 : visited_set) (go : A -> visited_set -> run (B * visited_set)) :=
  forall c W, incl V0 W -> exists r W', go c W = Ok (r, W') /\ incl W W'.

(** A decision procedure for [shape_built_before]. *)
Definition shape_built_before_b (h : heap) : bool :=
  forallb (fun i => forallb (fun kc => Nat.ltb (snd kc) i) (shape_of (node_at h i)))
          (seq 0 (length h)).

(** Two schemas that refer to each other through [z.lazy]:
    [A = z.object({ name, b: z.lazy(() => B) })] and
    [B = z.object({ title, a: z.lazy(() => A) })]. *)
Definition mutual_heap : heap := [
  (* 0 *) sortable true (queryable true (filterable true ext_leaf));
  (* 1 *) lazy_node (Some 4);
  (* 2 *) ext_object [("name", 0); ("b", 1)];
  (* 3 *) lazy_node (Some 2);
  (* 4 *) ext_object [("title", 0); ("a", 3)]
].




(** [z.object({ items: z.array(z.object({ name })), owner: z.lazy(() => z.object({ name })) })]
    where [name] is filterable, sortable and queryable. *)
Definition nested_kinds_heap : heap := [
  (* 0 *) sortable true (queryable true (filterable true ext_leaf));
  (* 1 *) ext_object [("name", 0)];
  (* 2 *) ext_array 1;
  (* 3 *) ext_object [("name", 0)];
  (* 4 *) lazy_node (Some 3);
  (* 5 *) ext_object [("items", 2); ("owner", 4)]
].



(** [{ a: z.string().filterable(), b: z.lazy(() => { throw ... }),
       c: z.string().filterable() }] *)
Definition throwing_lazy_heap : heap := [
  (* 0 *) filterable true ext_leaf;
  (* 1 *) lazy_node None;
  (* 2 *) ext_object [("a", 0); ("b", 1); ("c", 0)]
].

(** [{ mail: z.string().path(['email']) }] *)
Definition alias_root_heap : heap := [
  (* 0 *) path ["email"] ext_leaf;
  (* 1 *) ext_object [("mail", 0)]
].

(** [{ a: { b: { c: z.string() } } }] *)
Definition deep_heap : heap := [
  (* 0 *) ext_leaf;
  (* 1 *) ext_object [("c", 0)];
  (* 2 *) ext_object [("b", 1)];
  (* 3 *) ext_object [("a", 2)]
].

(** [{ name: z.string(), mail: z.string().path(['email']) }] *)
Definition flat_path_heap : heap := [
  (* 0 *) ext_leaf;
  (* 1 *) path ["email"] ext_leaf;
  (* 2 *) ext_object [("name", 0); ("mail", 1)]
].

(** The schema of the README example of getPath:
    [{ id, username, email: z.string().email(),
       profile: z.object({ firstName, lastName }) }]. *)
Definition readme_heap : heap := [
  (* 0 *) ext_leaf;
  (* 1 *) ext_object [("firstName", 0); ("lastName", 0)];
  (* 2 *) ext_object [("id", 0); ("username", 0); ("email", 0); ("profile", 1)]
].

(** The nested object with [value] at the end of [path]. *)
Fixpoint nested_of (path : list string) (value : jsval) : jsval :=
  match path with
  | [] => value
  | key :: rest => JObj [(key, nested_of rest value)]
  end.

(** The keys one entry [(key, value)] of an object gives its flattened form. *)
Definition dot_keys_of (x : string) (kv : string * jsval) : bool :=
  let '(key, value) := kv in
  match value with
  | JObj props => existsb (fun nkv => String.eqb x (key ++ "." ++ fst nkv)%string) props
  | JDate => false
  | _ => String.eqb x key
  end.

(** [{ id: z.string(), name: z.string().sortable().path(['fullName']),
       tags: z.array(z.string()).sortable() }] *)
Definition sortable_heap : heap := [
  (* 0 *) ext_leaf;
  (* 1 *) path ["fullName"] (sortable true ext_leaf);
  (* 2 *) sortable true (ext_array 0);
  (* 3 *) ext_object [("id", 0); ("name", 1); ("tags", 2)]
].

(** [{ name: z.string().filterable(), nick: z.lazy(() => z.string().filterable()),
       age: z.number() }] *)
Definition lazy_leaf_heap : heap := [
  (* 0 *) filterable true ext_leaf;
  (* 1 *) lazy_node (Some 0);
  (* 2 *) ext_leaf;
  (* 3 *) ext_object [("name", 0); ("nick", 1); ("age", 2)]
].

(** [{ name: z.string().queryable().path(['firstName', 'lastName']),
       secret: z.string().queryable().path() }] *)
Definition alias_list_heap : heap := [
  (* 0 *) path ["firstName"; "lastName"] (queryable true ext_leaf);
  (* 1 *) path [] (queryable true ext_leaf);
  (* 2 *) ext_object [("name", 0); ("secret", 1)]
].

(** [const Address = z.object({ city: z.string().filterable() });
     z.object({ home: Address, work: Address })] *)
Definition shared_child_heap : heap := [
  (* 0 *) filterable true ext_leaf;
  (* 1 *) ext_object [("city", 0)];
  (* 2 *) ext_object [("home", 1); ("work", 1)]
].

(** * Proofs *)

Lemma mem_true_iff (n : nat) (l : list nat) : mem n l = true <-> In n l.
Proof.
  unfold mem. rewrite existsb_exists. split.
  - intros [x [Hx Heq]]. apply Nat.eqb_eq in Heq. subst. exact Hx.
  - intros H. exists n. split; [exact H | apply Nat.eqb_refl].
Qed.

Lemma mem_false_iff (n : nat) (l : list nat) : mem n l = false <-> ~ In n l.
Proof.
  rewrite <- mem_true_iff. destruct (mem n l); split; intros H.
  - discriminate.
  - exfalso. apply H. reflexivity.
  - intros H'. discriminate.
  - reflexivity.
Qed.

Lemma count_unvisited_mono (l V V' : list nat) :
  incl V V' ->
  length (filter (fun i => negb (mem i V')) l) <= length (filter (fun i => negb (mem i V)) l).
Proof.
  intros Hinc. induction l as [|a l IH]; simpl; [lia|].
  destruct (mem a V') eqn:E'; destruct (mem a V) eqn:E; simpl; try lia.
  apply mem_false_iff in E'. apply mem_true_iff in E. exfalso. apply E'. apply Hinc, E.
Qed.

Lemma count_unvisited_strict (l V : list nat) (n : nat) :
  In n l -> ~ In n V ->
  length (filter (fun i => negb (mem i (n :: V))) l) < length (filter (fun i => negb (mem i V)) l).
Proof.
  intros Hin Hn. induction l as [|a l IH]; [destruct Hin|].
  assert (Hmono := count_unvisited_mono l V (n :: V) (fun x H => or_intror H)).
  cbn [filter length].
  destruct (mem a (n :: V)) eqn:E1; destruct (mem a V) eqn:E2; cbn [negb length].
  - destruct Hin as [<- | Hin]; [apply mem_true_iff in E2; contradiction|].
    specialize (IH Hin). lia.
  - lia.
  - apply mem_false_iff in E1. exfalso. apply E1. right. apply mem_true_iff, E2.
  - apply mem_false_iff in E1. destruct Hin as [<- | Hin]; [exfalso; apply E1; left; reflexivity|].
    specialize (IH Hin). lia.
Qed.

Lemma unvisited_mono (h : heap) (V V' : visited_set) :
  incl V V' -> unvisited h V' <= unvisited h V.
Proof. apply count_unvisited_mono. Qed.

Lemma unvisited_step (h : heap) (V : visited_set) (n : nat) :
  n < length h -> mem n V = false -> unvisited h (n :: V) < unvisited h V.
Proof.
  intros Hlt Hm. apply count_unvisited_strict.
  - apply in_seq. lia.
  - apply mem_false_iff, Hm.
Qed.

Lemma unvisited_bound (h : heap) (V : visited_set) : unvisited h V <= length h.
Proof.
  unfold unvisited. rewrite <- (length_seq (length h) 0) at 2. apply filter_length_le.
Qed.

Lemma node_at_out (h : heap) (i : nat) : length h <= i -> node_at h i = default_node.
Proof. intros H. unfold node_at. apply nth_overflow, H. Qed.

(** ** Termination of the traversals *)

Lemma loop_entries_inv {S : Type} (P : S -> Prop) (body : string * nat -> S -> run S)
  (entries : list (string * nat)) (s : S) :
  (forall e s0, P s0 -> exists s1, body e s0 = Ok s1 /\ P s1) ->
  P s -> exists s', loop_entries body entries s = Ok s' /\ P s'.
Proof.
  intros Hbody. revert s. induction entries as [|e rest IH]; intros s Hs; simpl.
  - exists s. split; [reflexivity | exact Hs].
  - destruct (Hbody e s Hs) as (s1 & -> & Hs1). simpl. apply IH, Hs1.
Qed.

Ltac finish_step :=
  first
    [ eexists; split; [reflexivity | split; [ | apply incl_refl]; assumption]
    | eexists; split; [reflexivity | split; [eapply incl_tran; eassumption | assumption]] ].

Ltac descend_step Hgo :=
  match goal with
  | |- context [if mem ?c ?W then _ else _] =>
      destruct (mem c W);
      [ finish_step
      | match goal with HW : incl _ W |- _ =>
          let r := fresh "r" in let W' := fresh "W" in let Hr := fresh "Hr" in let Hi := fresh "Hi" in
          destruct (Hgo c W HW) as (r & W' & Hr & Hi); rewrite Hr; cbn [bind fst snd];
          finish_step end ]
  end.

Lemma getFilterable_entry_total go h V0 e acc W :
  grows_from V0 go -> incl V0 W ->
  exists s1, getFilterable_entry go h e (acc, W) = Ok s1 /\ incl V0 (snd s1) /\ incl W (snd s1).
Proof.
  intros Hgo HW. destruct e as [key v]. unfold getFilterable_entry. cbv zeta.
  repeat match goal with
         | |- context [match ?x with _ => _ end] =>
             lazymatch x with
             | mem _ _ => fail
             | _ => destruct x
             end
         end;
  try descend_step Hgo;
  try (destruct (n_ext _ && isFilterable _); finish_step);
  finish_step.
Qed.

Lemma getFilterable_total (h : heap) :
  forall f n V st, incl st V -> unvisited h V < f ->
  exists r V', getFilterable f h n V st = Ok (r, V') /\ incl V V'.
Proof.
  induction f as [|f IH]; intros n V st Hst Hf; [lia|].
  simpl. destruct (mem n V) eqn:Hn.
  - exists [], V. split; [reflexivity | apply incl_refl].
  - assert (Hns : mem n st = false).
    { apply mem_false_iff. intros Hin. apply mem_false_iff in Hn. apply Hn, Hst, Hin. }
    rewrite Hns.
    destruct (Nat.lt_ge_cases n (length h)) as [Hlt | Hge].
    + assert (Hgo : grows_from (n :: V) (fun c W => getFilterable f h c W (n :: st))).
      { intros c W HW. apply IH.
        - intros x [<- | Hx]; [apply HW; left; reflexivity | apply HW; right; apply Hst, Hx].
        - pose proof (unvisited_mono h _ _ HW). pose proof (unvisited_step h V n Hlt Hn). lia. }
      destruct (loop_entries_inv (fun s => incl (n :: V) (snd s))
                  (getFilterable_entry (fun c W => getFilterable f h c W (n :: st)) h)
                  (shape_of (node_at h n)) ([], n :: V)) as ([r V'] & Hr & HV').
      * intros e [acc W] HW.
        destruct (getFilterable_entry_total _ h (n :: V) e acc W Hgo HW) as (s1 & Hs1 & H1 & _).
        exists s1. split; assumption.
      * apply incl_refl.
      * exists r, V'. split; [exact Hr|]. intros x Hx. apply HV'. right. exact Hx.
    + rewrite node_at_out by exact Hge. simpl.
      eexists _, _. split; [reflexivity|]. intros x Hx. right. exact Hx.
Qed.

Ltac descend_step_path Hgo :=
  match goal with
  | |- context [if mem ?c ?W then _ else _] =>
      destruct (mem c W);
      [ finish_step
      | match goal with HW : incl _ W |- _ =>
          let r := fresh "r" in let W' := fresh "W" in let Hr := fresh "Hr" in let Hi := fresh "Hi" in
          match goal with |- context [?g c ?pk W] =>
            destruct (Hgo c pk W HW) as (r & W' & Hr & Hi); rewrite Hr; cbn [bind fst snd] end;
          finish_step end ]
  end.

Lemma getPath_entry_total go h pk V0 e acc W :
  (forall c pk' W', incl V0 W' -> exists r W'', go c pk' W' = Ok (r, W'') /\ incl W' W'') ->
  incl V0 W ->
  exists s1, getPath_entry go h pk e (acc, W) = Ok s1 /\ incl V0 (snd s1) /\ incl W (snd s1).
Proof.
  intros Hgo HW. destruct e as [key v]. unfold getPath_entry. cbv zeta.
  repeat match goal with
         | |- context [match ?x with _ => _ end] =>
             lazymatch x with
             | mem _ _ => fail
             | _ => destruct x
             end
         end;
  try descend_step_path Hgo;
  finish_step.
Qed.

Lemma getPath_total (h : heap) :
  forall f n pk V st, incl st V -> unvisited h V < f ->
  exists r V', getPath f h n pk V st = Ok (r, V') /\ incl V V'.
Proof.
  induction f as [|f IH]; intros n pk V st Hst Hf; [lia|].
  simpl. destruct (mem n V) eqn:Hn.
  - exists [], V. split; [reflexivity | apply incl_refl].
  - assert (Hns : mem n st = false).
    { apply mem_false_iff. intros Hin. apply mem_false_iff in Hn. apply Hn, Hst, Hin. }
    rewrite Hns.
    destruct (Nat.lt_ge_cases n (length h)) as [Hlt | Hge].
    + assert (Hgo : forall c pk' W, incl (n :: V) W -> exists r W',
                 getPath f h c pk' W (n :: st) = Ok (r, W') /\ incl W W').
      { intros c pk' W HW. apply IH.
        - intros x [<- | Hx]; [apply HW; left; reflexivity | apply HW; right; apply Hst, Hx].
        - pose proof (unvisited_mono h _ _ HW). pose proof (unvisited_step h V n Hlt Hn). lia. }
      destruct (loop_entries_inv (fun s => incl (n :: V) (snd s))
                  (getPath_entry (fun c pk' W => getPath f h c pk' W (n :: st)) h pk)
                  (shape_of (node_at h n)) ([], n :: V)) as ([r V'] & Hr & HV').
      * intros e [acc W] HW.
        destruct (getPath_entry_total _ h pk (n :: V) e acc W Hgo HW) as (s1 & Hs1 & H1 & _).
        exists s1. split; assumption.
      * apply incl_refl.
      * exists r, V'. split; [exact Hr|]. intros x Hx. apply HV'. right. exact Hx.
    + rewrite node_at_out by exact Hge. simpl.
      eexists _, _. split; [reflexivity|]. intros x Hx. right. exact Hx.
Qed.

Lemma getSortable_total (h : heap) :
  shape_built_before h ->
  forall f n st, n < f -> (forall x, In x st -> n < x) ->
  exists r, getSortable f h n st = Ok r.
Proof.
  intros Hwf. induction f as [|f IH]; intros n st Hf Hst; [lia|].
  simpl. assert (Hns : mem n st = false).
  { apply mem_false_iff. intros Hin. specialize (Hst n Hin). lia. }
  rewrite Hns.
  assert (Hloop : forall entries acc, incl entries (shape_of (node_at h n)) ->
            exists r, loop_entries (getSortable_entry (fun c => getSortable f h c (n :: st)) h)
                        entries acc = Ok r).
  { induction entries as [|[key c] rest IHe]; intros acc Hinc; simpl; [eexists; reflexivity|].
    assert (Hc : c < n) by (eapply Hwf, Hinc; left; reflexivity).
    assert (Hrest : incl rest (shape_of (node_at h n))) by (intros x Hx; apply Hinc; right; exact Hx).
    destruct (is_object (node_at h c)).
    - destruct (IH c (n :: st)) as [r Hr]; [lia | |].
      + intros x [<- | Hx]; [exact Hc | specialize (Hst x Hx); lia].
      + rewrite Hr. simpl. apply IHe, Hrest.
    - destruct (n_ext (node_at h c) && isSortable (node_at h c)); simpl; apply IHe, Hrest. }
  apply Hloop, incl_refl.
Qed.

Lemma getQueryable_total (h : heap) :
  shape_built_before h ->
  forall f n st, n < f -> (forall x, In x st -> n < x) ->
  exists r, getQueryable f h n st = Ok r.
Proof.
  intros Hwf. induction f as [|f IH]; intros n st Hf Hst; [lia|].
  simpl. assert (Hns : mem n st = false).
  { apply mem_false_iff. intros Hin. specialize (Hst n Hin). lia. }
  rewrite Hns.
  assert (Hloop : forall entries acc, incl entries (shape_of (node_at h n)) ->
            exists r, loop_entries (getQueryable_entry (fun c => getQueryable f h c (n :: st)) h)
                        entries acc = Ok r).
  { induction entries as [|[key c] rest IHe]; intros acc Hinc; simpl; [eexists; reflexivity|].
    assert (Hc : c < n) by (eapply Hwf, Hinc; left; reflexivity).
    assert (Hrest : incl rest (shape_of (node_at h n))) by (intros x Hx; apply Hinc; right; exact Hx).
    destruct (is_object (node_at h c)).
    - destruct (IH c (n :: st)) as [r Hr]; [lia | |].
      + intros x [<- | Hx]; [exact Hc | specialize (Hst x Hx); lia].
      + rewrite Hr. simpl. apply IHe, Hrest.
    - destruct (n_ext (node_at h c)); destruct (isQueryable (node_at h c)); simpl;
        try destruct (d_path (n_desc (node_at h c))); simpl; apply IHe, Hrest. }
  apply Hloop, incl_refl.
Qed.

Lemma shape_built_before_b_sound (h : heap) :
  shape_built_before_b h = true -> shape_built_before h.
Proof.
  unfold shape_built_before_b, shape_built_before. intros Hb i k c Hin.
  destruct (Nat.lt_ge_cases i (length h)) as [Hlt | Hge].
  - rewrite forallb_forall in Hb. specialize (Hb i (proj2 (in_seq _ _ _) (conj (Nat.le_0_l _) Hlt))).
    rewrite forallb_forall in Hb. specialize (Hb (k, c) Hin). apply Nat.ltb_lt in Hb. exact Hb.
  - rewrite node_at_out in Hin by exact Hge. destruct Hin.
Qed.

Example mutual_heap_filterable :
  getFilterable 6 mutual_heap 2 [] [] = Ok ([("name", TTrue); ("b", TObj [("title", TTrue)])], [4; 2]).
Proof. reflexivity. Qed.

Example mutual_heap_path :
  getPath 6 mutual_heap 2 [] [] [] = Ok ([("name", "name"); ("b.title", "b.title")], [4; 2]).
Proof. reflexivity. Qed.

(** C1 *)

(** Claim C1: on every schema heap, cyclic through lazy nodes or not,
    getFilterable and getPath (with a call budget of one frame per node)
    and getSortable and getQueryable (with one frame per id below the
    root) return normally: they never run out of budget and never descend
    again into a node whose shape is being walked on the current path.
    getFilterable and getPath give the empty result for a node already
    visited. *)
Theorem traversals_terminate_without_revisit (h : heap) (root : nat) :
  shape_built_before h ->
  (exists r V, getFilterable (S (length h)) h root [] [] = Ok (r, V)) /\
  (exists r V, getPath (S (length h)) h root [] [] [] = Ok (r, V)) /\
  (exists r, getSortable (S root) h root [] = Ok r) /\
  (exists r, getQueryable (S root) h root [] = Ok r) /\
  (forall f n V st pk, mem n V = true ->
     getFilterable (S f) h n V st = Ok ([], V) /\ getPath (S f) h n pk V st = Ok ([], V)).
Proof.
  intros Hwf. assert (Hb := unvisited_bound h []).
  split; [|split; [|split; [|split]]].
  - destruct (getFilterable_total h (S (length h)) root [] [] (incl_refl _)) as (r & V & Hr & _);
      [lia|]. exists r, V. exact Hr.
  - destruct (getPath_total h (S (length h)) root [] [] [] (incl_refl _)) as (r & V & Hr & _);
      [lia|]. exists r, V. exact Hr.
  - apply getSortable_total; [exact Hwf | lia | intros x []].
  - apply getQueryable_total; [exact Hwf | lia | intros x []].
  - intros f n V st pk Hn. simpl. rewrite Hn. split; reflexivity.
Qed.

Lemma traversals_terminate_without_revisit_witness :
  shape_built_before mutual_heap /\
  (exists r V, getFilterable 6 mutual_heap 2 [] [] = Ok (r, V)) /\
  (exists r V, getPath 6 mutual_heap 2 [] [] [] = Ok (r, V)) /\
  (exists r, getSortable 3 mutual_heap 2 [] = Ok r) /\
  (exists r, getQueryable 3 mutual_heap 2 [] = Ok r).
Proof.
  assert (Hwf : shape_built_before mutual_heap)
    by (apply shape_built_before_b_sound; reflexivity).
  destruct (traversals_terminate_without_revisit mutual_heap 2 Hwf) as (H1 & H2 & H3 & H4 & _).
  split; [exact Hwf | split; [exact H1 | split; [exact H2 | split; [exact H3 | exact H4]]]].
Defined.

(** ** Records *)

Lemma lookup_assign {A} (k k' : string) (v : A) (r : record A) :
  lookup k (assign k' v r) = if String.eqb k k' then Some v else lookup k r.
Proof.
  induction r as [|[k2 v2] r IH]; simpl.
  - reflexivity.
  - destruct (String.eqb k' k2) eqn:E; simpl.
    + apply String.eqb_eq in E. subst k2. destruct (String.eqb k k'); reflexivity.
    + rewrite IH. destruct (String.eqb k k') eqn:E1; [|reflexivity].
      apply String.eqb_eq in E1. subst k'. rewrite E. reflexivity.
Qed.

Lemma lookup_js_set {A} (k key : string) (v : A) (r : record A) :
  lookup k (js_set key v r) = if String.eqb k key && sets_own key r then Some v else lookup k r.
Proof.
  unfold js_set. destruct (sets_own key r); rewrite ?lookup_assign;
    destruct (String.eqb k key); reflexivity.
Qed.

Lemma js_set_cases {A} (k : string) (v : A) (r : record A) :
  js_set k v r = r \/ js_set k v r = assign k v r.
Proof. unfold js_set. destruct (sets_own k r); auto. Qed.

Lemma has_own_lookup_none {A} (k : string) (r : record A) : lookup k r = None -> has_own r k = false.
Proof.
  unfold has_own. induction r as [|[k' v'] r IH]; simpl; [reflexivity|].
  destruct (String.eqb k k'); [discriminate | exact IH].
Qed.

Lemma sets_own_fresh {A} (k : string) (r : record A) :
  lookup k r = None -> sets_own k r = negb (String.eqb k "__proto__").
Proof. intros H. unfold sets_own. rewrite (has_own_lookup_none k r H). apply orb_false_r. Qed.

(** A plain object with no own ["__proto__"] never gets one by assignment. *)
Lemma js_set_no_proto {A} (k : string) (v : A) (r : record A) :
  lookup "__proto__" r = None -> lookup "__proto__" (js_set k v r) = None.
Proof.
  intros H. rewrite lookup_js_set. destruct (String.eqb "__proto__" k) eqn:E; [|exact H].
  apply String.eqb_eq in E. subst k. rewrite (sets_own_fresh _ _ H). exact H.
Qed.

Lemma has_own_assign {A} (x k : string) (v : A) (r : record A) :
  has_own (assign k v r) x = String.eqb x k || has_own r x.
Proof.
  unfold has_own. induction r as [|[k' v'] r IH]; simpl.
  - rewrite orb_false_r. reflexivity.
  - destruct (String.eqb k k') eqn:E; simpl.
    + apply String.eqb_eq in E. subst k'. destruct (String.eqb x k); reflexivity.
    + rewrite IH. destruct (String.eqb x k), (String.eqb x k'); reflexivity.
Qed.

Lemma sets_own_js_set {A} (k p : string) (v : A) (r : record A) :
  sets_own k (js_set p v r) = sets_own k r.
Proof.
  unfold sets_own. destruct (String.eqb k "__proto__") eqn:Ek; simpl; [|reflexivity].
  apply String.eqb_eq in Ek. subst k.
  unfold js_set. destruct (sets_own p r) eqn:Ep; [|reflexivity].
  rewrite has_own_assign. destruct (String.eqb "__proto__" p) eqn:Epp; [|reflexivity].
  apply String.eqb_eq in Epp. subst p. unfold sets_own in Ep. simpl in Ep. rewrite Ep. reflexivity.
Qed.

Lemma lookup_put_nested (k key : string) (nested acc : record tree) :
  lookup k (put_nested key nested acc) =
  if String.eqb k key && Nat.ltb 0 (length nested) && sets_own key acc
  then Some (TObj nested) else lookup k acc.
Proof.
  unfold put_nested. destruct (Nat.ltb 0 (length nested)); rewrite ?lookup_js_set;
    destruct (String.eqb k key); reflexivity.
Qed.

Lemma lookup_set_aliases (k : string) (ps : list string) (acc : record tree) :
  lookup k (set_aliases ps acc) =
  if existsb (String.eqb k) ps && sets_own k acc then Some TTrue else lookup k acc.
Proof.
  unfold set_aliases. revert acc. induction ps as [|p ps IH]; intros acc; simpl; [reflexivity|].
  rewrite IH, sets_own_js_set, lookup_js_set.
  destruct (String.eqb k p) eqn:E; simpl.
  - apply String.eqb_eq in E. subst p.
    destruct (existsb (String.eqb k) ps), (sets_own k acc); reflexivity.
  - reflexivity.
Qed.





Lemma loop_entries_preserve {S : Type} (P : S -> Prop) (body : string * nat -> S -> run S)
  (entries : list (string * nat)) (s s' : S) :
  (forall e s0 s1, P s0 -> body e s0 = Ok s1 -> P s1) ->
  P s -> loop_entries body entries s = Ok s' -> P s'.
Proof.
  intros Hb. revert s. induction entries as [|e rest IH]; intros s Hs Hl; simpl in Hl.
  - injection Hl as <-. exact Hs.
  - destruct (body e s) as [s1| |m] eqn:E; simpl in Hl; try discriminate.
    apply (IH s1); [apply (Hb e s s1 Hs E) | exact Hl].
Qed.

Lemma loop_entries_split {S : Type} (body : string * nat -> S -> run S)
  (s1 s2 : list (string * nat)) (e : string * nat) (s s' : S) :
  loop_entries body (s1 ++ e :: s2) s = Ok s' ->
  exists a b, loop_entries body s1 s = Ok a /\ body e a = Ok b /\ loop_entries body s2 b = Ok s'.
Proof.
  revert s. induction s1 as [|e1 s1 IH]; intros s Hl; simpl in Hl.
  - destruct (body e s) as [b| |m] eqn:E; simpl in Hl; try discriminate.
    exists s, b. simpl. auto.
  - destruct (body e1 s) as [a1| |m] eqn:E; simpl in Hl; try discriminate.
    destruct (IH a1 Hl) as (a & b & Ha & Hb & Hc). exists a, b. simpl. rewrite E. simpl. auto.
Qed.

(** Entries that leave the value under [k] alone leave it alone in the
    whole loop. *)
Lemma loop_entries_frame {S A : Type} (get : S -> record A) (k : string)
  (body : string * nat -> S -> run S) (entries : list (string * nat)) (s s' : S) :
  (forall e s0 s1, In e entries -> body e s0 = Ok s1 -> lookup k (get s1) = lookup k (get s0)) ->
  loop_entries body entries s = Ok s' -> lookup k (get s') = lookup k (get s).
Proof.
  revert s. induction entries as [|e rest IH]; intros s Hb Hl; simpl in Hl.
  - injection Hl as <-. reflexivity.
  - destruct (body e s) as [s1| |m] eqn:E; simpl in Hl; try discriminate.
    rewrite (IH s1); [| intros e0 s0 s2 Hin; apply Hb; right; exact Hin | exact Hl].
    apply (Hb e s s1 (or_introl eq_refl) E).
Qed.

(** ** The pruning invariant *)

Ltac destruct_run_ok :=
  match goal with
  | H : bind ?m _ = Ok _ |- _ =>
      let E := fresh "E" in destruct m eqn:E; cbn [bind] in H; try discriminate H
  end.




(** ** Which entries write which keys *)

Lemma getSortable_entry_frame go h k e acc acc' :
  fst e <> k -> getSortable_entry go h e acc = Ok acc' -> lookup k acc' = lookup k acc.
Proof.
  destruct e as [key c]. simpl. intros Hne He.
  assert (Hf : String.eqb k key = false) by (apply String.eqb_neq; congruence).
  unfold getSortable_entry in He. destruct (is_object (node_at h c)).
  - destruct_run_ok. injection He as <-. rewrite lookup_put_nested, Hf. reflexivity.
  - destruct (_ && _); injection He as <-; [rewrite lookup_js_set, Hf|]; reflexivity.
Qed.

Lemma getQueryable_entry_frame go h k e acc acc' :
  fst e <> k ->
  (forall ps, d_path (n_desc (node_at h (snd e))) = Some ps -> ~ In k ps) ->
  getQueryable_entry go h e acc = Ok acc' -> lookup k acc' = lookup k acc.
Proof.
  destruct e as [key c]. simpl. intros Hne Hps He.
  assert (Hf : String.eqb k key = false) by (apply String.eqb_neq; congruence).
  unfold getQueryable_entry in He. destruct (is_object (node_at h c)).
  - destruct_run_ok. injection He as <-. rewrite lookup_put_nested, Hf. reflexivity.
  - destruct (n_ext (node_at h c)); destruct (isQueryable (node_at h c)); simpl in He;
      try (injection He as <-; reflexivity).
    destruct (d_path (n_desc (node_at h c))) as [ps|] eqn:Ep; injection He as <-.
    + rewrite lookup_set_aliases.
      destruct (existsb (String.eqb k) ps) eqn:Ex; [|reflexivity].
      exfalso. apply existsb_exists in Ex as [p [Hp Hkp]]. apply String.eqb_eq in Hkp. subst p.
      exact (Hps ps eq_refl Hp).
    + rewrite lookup_js_set, Hf. reflexivity.
Qed.

Lemma getFilterable_entry_frame go h k e s0 s1 :
  fst e <> k -> getFilterable_entry go h e s0 = Ok s1 -> lookup k (fst s1) = lookup k (fst s0).
Proof.
  destruct e as [key c]. destruct s0 as [acc W]. simpl. intros Hne He.
  assert (Hf : String.eqb k key = false) by (apply String.eqb_neq; congruence).
  unfold getFilterable_entry in He. cbv zeta in He.
  repeat match type of He with
         | context [match ?x with _ => _ end] => destruct x
         end;
  try (injection He as <-; reflexivity);
  try (injection He as <-; simpl; rewrite lookup_js_set, Hf; reflexivity);
  destruct_run_ok; injection He as <-; simpl; rewrite lookup_put_nested, Hf; reflexivity.
Qed.

(** On a composite child, the loop body of getFilterable is the guarded
    recursive call. *)
Lemma getFilterable_entry_composite go h key v c acc W :
  composite_child h v = Some c ->
  getFilterable_entry go h (key, v) (acc, W) =
  if mem c W then Ok (acc, W) else r <- go c W ;; Ok (put_nested key (fst r) acc, snd r).
Proof.
  unfold composite_child, getFilterable_entry. cbv zeta.
  destruct (n_kind (node_at h v)) as [sh|t|[lv|]|] eqn:Ev; try discriminate.
  - intros [= <-]. reflexivity.
  - destruct (is_object (node_at h t)); [intros [= <-]; reflexivity | discriminate].
  - destruct (n_kind (node_at h lv)) as [sh|t|g|] eqn:Elv.
    + intros [= <-]. reflexivity.
    + destruct (is_object (node_at h t)); [intros [= <-]; reflexivity | discriminate].
    + discriminate.
    + discriminate.
Qed.

Lemma NoDup_keys_split (s1 s2 : list (string * nat)) (k : string) (v : nat) :
  NoDup (map fst (s1 ++ (k, v) :: s2)) ->
  (forall e, In e s1 -> fst e <> k) /\ (forall e, In e s2 -> fst e <> k).
Proof.
  rewrite map_app. simpl. intros Hnd. apply NoDup_remove_2 in Hnd.
  split; intros [k' v'] Hin Heq; simpl in Heq; subst k'; apply Hnd; apply in_or_app.
  - left. apply in_map_iff. exists (k, v'). auto.
  - right. apply in_map_iff. exists (k, v'). auto.
Qed.

(** ** Composite keys are present exactly for non-empty results *)



Lemma loop_entries_grows go h V0 entries s s' :
  (forall c W r W', go c W = Ok (r, W') -> incl W W') ->
  incl V0 (snd s) -> loop_entries (getFilterable_entry go h) entries s = Ok s' -> incl V0 (snd s').
Proof.
  intros Hgo. apply (loop_entries_preserve (fun s0 => incl V0 (snd s0))).
  intros [key v] [acc W] s1 HW He.
  unfold getFilterable_entry in He. cbv zeta in He.
  repeat match type of He with
         | context [match ?x with _ => _ end] => destruct x
         end;
  try (injection He as <-; exact HW);
  destruct_run_ok; injection He as <-; simpl;
  match goal with E : go _ _ = Ok ?p |- _ => destruct p; eapply incl_tran; [exact HW | eapply Hgo; exact E] end.
Qed.

Lemma getFilterable_grows (h : heap) :
  forall f n V st r V', getFilterable f h n V st = Ok (r, V') -> incl V V'.
Proof.
  induction f as [|f IH]; intros n V st r V' Hr; simpl in Hr; [discriminate|].
  destruct (mem n V); [injection Hr as _ <-; apply incl_refl|].
  destruct (mem n st); [discriminate|].
  assert (H := loop_entries_grows (fun c W => getFilterable f h c W (n :: st)) h V _ ([], n :: V) _
                 (fun c W r0 W' E => IH c W _ r0 W' E) (fun x Hx => or_intror Hx) Hr).
  exact H.
Qed.


(** ** C2 *)




Lemma loop_entries_preserve_in {S : Type} (P : S -> Prop) (body : string * nat -> S -> run S)
  (entries : list (string * nat)) (s s' : S) :
  (forall e s0 s1, In e entries -> P s0 -> body e s0 = Ok s1 -> P s1) ->
  P s -> loop_entries body entries s = Ok s' -> P s'.
Proof.
  revert s. induction entries as [|e rest IH]; intros s Hb Hs Hl; simpl in Hl.
  - injection Hl as <-. exact Hs.
  - destruct (body e s) as [s1| |m] eqn:E; simpl in Hl; try discriminate.
    apply (IH s1); [intros e0 s0 s2 Hin; apply Hb; right; exact Hin | | exact Hl].
    apply (Hb e s s1 (or_introl eq_refl) Hs E).
Qed.

(** Once [true] is stored under [a], later entries keep it there unless an
    object child named [a] comes. *)
Lemma getQueryable_entry_keeps_true go h a e acc acc' :
  (fst e = a -> is_object (node_at h (snd e)) = false) ->
  lookup a acc = Some TTrue -> getQueryable_entry go h e acc = Ok acc' -> lookup a acc' = Some TTrue.
Proof.
  destruct e as [key c]. simpl. intros Hobj Ha He. unfold getQueryable_entry in He.
  destruct (is_object (node_at h c)) eqn:Eo.
  - destruct_run_ok. injection He as <-. rewrite lookup_put_nested.
    destruct (String.eqb a key) eqn:Ek; [|exact Ha].
    apply String.eqb_eq in Ek. subst key. pose proof (Hobj eq_refl) as Hf. congruence.
  - destruct (n_ext (node_at h c)); destruct (isQueryable (node_at h c)); simpl in He;
      try (injection He as <-; exact Ha).
    destruct (d_path (n_desc (node_at h c))); injection He as <-.
    + rewrite lookup_set_aliases. destruct (_ && _); [reflexivity | exact Ha].
    + rewrite lookup_js_set. destruct (_ && _); [reflexivity | exact Ha].
Qed.

(** ** C3 *)

(** Claim C3, counterexample: for [{items: z.array(z.object({name})),
    owner: z.lazy(() => z.object({name}))}] with [name] flagged for all
    three capabilities, getFilterable finds the flagged leaves inside the
    array-of-object child and the lazy child; getSortable and getQueryable
    find nothing. *)
Lemma recursion_kinds_counterexample :
  getFilterable 7 nested_kinds_heap 5 [] [] =
    Ok ([("items", TObj [("name", TTrue)]); ("owner", TObj [("name", TTrue)])], [3; 1; 5]) /\
  getSortable 6 nested_kinds_heap 5 [] = Ok [] /\
  getQueryable 6 nested_kinds_heap 5 [] = Ok [].
Proof. repeat split; vm_compute; reflexivity. Qed.

(** Claim C3 (code bug): getFilterable recurses into every composite child
    (an object, an array of objects, or a lazy node resolving to either),
    unless the child was already visited; getSortable and getQueryable, the
    traversals the spec calls structurally parallel, recurse into plain
    object children only: on any other child (lazy or array) their loop
    body makes no recursive call, so it depends only on that node's own
    flags, and the flagged leaves inside such a child are lost. *)
Theorem recursion_into_children (h : heap) (key : string) (v : nat) :
  (forall c go acc W, composite_child h v = Some c ->
     getFilterable_entry go h (key, v) (acc, W) =
     if mem c W then Ok (acc, W) else r <- go c W ;; Ok (put_nested key (fst r) acc, snd r)) /\
  (is_object (node_at h v) = true -> forall go acc,
     getSortable_entry go h (key, v) acc = (nested <- go v ;; Ok (put_nested key nested acc)) /\
     getQueryable_entry go h (key, v) acc = (nested <- go v ;; Ok (put_nested key nested acc))) /\
  (is_object (node_at h v) = false -> forall go go' acc,
     getSortable_entry go h (key, v) acc = getSortable_entry go' h (key, v) acc /\
     getQueryable_entry go h (key, v) acc = getQueryable_entry go' h (key, v) acc).
Proof.
  split; [|split].
  - intros c go acc W Hc. apply getFilterable_entry_composite, Hc.
  - intros Hobj go acc. unfold getSortable_entry, getQueryable_entry. rewrite Hobj. split; reflexivity.
  - intros Hobj go go' acc. unfold getSortable_entry, getQueryable_entry. rewrite Hobj. split; reflexivity.
Qed.

Lemma recursion_into_children_witness :
  composite_child nested_kinds_heap 2 = Some 1 /\ composite_child nested_kinds_heap 4 = Some 3 /\
  is_object (node_at nested_kinds_heap 2) = false /\
  getFilterable_entry (fun c W => getFilterable 5 nested_kinds_heap c W [5]) nested_kinds_heap
    ("items", 2) ([], [5]) =
    (r <- getFilterable 5 nested_kinds_heap 1 [5] [5] ;; Ok (put_nested "items" (fst r) [], snd r)) /\
  getSortable_entry (fun c => getSortable 5 nested_kinds_heap c [5]) nested_kinds_heap ("items", 2) [] =
    getSortable_entry (fun _ => OutOfFuel) nested_kinds_heap ("items", 2) [].
Proof.
  destruct (recursion_into_children nested_kinds_heap "items" 2) as (Hf & _ & Hs).
  split; [reflexivity|]. split; [reflexivity|]. split; [reflexivity|]. split.
  - rewrite (Hf 1 _ [] [5] eq_refl). reflexivity.
  - exact (proj1 (Hs eq_refl _ _ [])).
Defined.

(** ** C4 *)





(** ** C5 *)

Lemma zparse_any_items (items : list jsval) : flat_map (zparse ZAny) items = [].
Proof. induction items; simpl; auto. Qed.

Lemma validator_of_vocabulary (op : string) :
  In op operator_vocabulary ->
  exists z, validator_at op = OwnSchema z /\
    forall v, (zparse z v = []) <-> conforms op v = true.
Proof.
  intros Hin.
  simpl in Hin; repeat destruct Hin as [<- | Hin]; try contradiction;
    eexists; (split; [reflexivity|]); intros v;
    destruct v as [| | b | z | s | | items | props]; cbn;
    try rewrite zparse_any_items;
    try (split; intros; first [reflexivity | discriminate]).
  all: try (destruct (has_percent s); cbn; split; intros; first [reflexivity | discriminate]).
  all: destruct items as [| a [| b [| c rest]]]; cbn; split; intros; first [reflexivity | discriminate].
Qed.

(** Claim C5: for every operator of the vocabulary, [validateOperatorInput]
    returns [[true, null]] on an operand of the operator's shape and a
    failure tuple carrying a non-empty list of zod issues on any other
    operand; a [like]-family operand containing '%' fails with the message
    "Value must not contain '%' character". *)
Theorem operator_input_validation (op : string) (v : jsval) :
  In op operator_vocabulary ->
  (conforms op v = true -> validateOperatorInput op v = Normal Success) /\
  (conforms op v = false ->
     exists issues, issues <> [] /\ validateOperatorInput op v = Normal (Failure (ErrZod issues))) /\
  (forall s, In op like_operators -> has_percent s = true ->
     validateOperatorInput op (JStr s) = Normal (Failure (ErrZod [Custom percent_message]))).
Proof.
  intros Hin. destruct (validator_of_vocabulary op Hin) as (z & Hz & Hc).
  unfold validateOperatorInput. rewrite Hz. split; [|split].
  - intros Hv. apply Hc in Hv. rewrite Hv. reflexivity.
  - intros Hv. destruct (zparse z v) as [|i is] eqn:E.
    + apply Hc in E. congruence.
    + exists (i :: is). split; [discriminate | reflexivity].
  - intros s Hl Hp. clear Hc Hin.
    simpl in Hl; repeat destruct Hl as [<- | Hl]; try contradiction;
      cbn in Hz; injection Hz as <-; cbn; unfold no_percent; rewrite Hp; reflexivity.
Qed.

Lemma operator_input_validation_witness :
  In "like" operator_vocabulary /\
  validateOperatorInput "like" (JStr "abc%") = Normal (Failure (ErrZod [Custom percent_message])) /\
  validateOperatorInput "like" (JStr "abc") = Normal Success.
Proof.
  assert (Hin : In "like" operator_vocabulary) by (simpl; tauto).
  destruct (operator_input_validation "like" (JStr "abc") Hin) as [Hok _].
  destruct (operator_input_validation "like" (JStr "abc%") Hin) as [_ [_ Hpct]].
  split; [exact Hin | split].
  - apply Hpct; [simpl; tauto | reflexivity].
  - apply Hok. reflexivity.
Defined.

(** ** C6, C7, C8 *)

(** Claim C6 (code bug): a known field whose value is an object with an
    unrecognised key is accepted: the [[null, 'Invalid key: ...']] returned
    from the [forEach] callback is dropped. *)
Theorem nested_unknown_key_accepted :
  validator_at "foo" = Undefined /\
  validateOptions [("name", JObj [("foo", JNum 1%Z)])] [("name", JBool true)] = Normal Success.
Proof. split; reflexivity. Qed.

Lemma validator_at_own_vocabulary (op : string) (z : zod) :
  validator_at op = OwnSchema z -> In op operator_vocabulary.
Proof.
  unfold validator_at.
  destruct (lookup op sequelizeOperatorValidators) as [z'|] eqn:E.
  - intros _. revert E. cbn [lookup sequelizeOperatorValidators].
    repeat match goal with
           | |- context [String.eqb op ?s] =>
               let Es := fresh "Es" in
               destruct (String.eqb op s) eqn:Es;
               [apply String.eqb_eq in Es; subst op; intros; simpl; tauto |]
           end.
    intros H. discriminate H.
  - destruct (existsb (String.eqb op) object_prototype_keys); discriminate.
Qed.

(** Claim C7 (code bug): the invalid filter key [constructor] is not
    returned as a tuple but throws: the lookup
    [sequelizeOperatorValidators['constructor']] finds the inherited
    [Object] function.  The hard-error half holds: for an operator outside
    the vocabulary [validateOperatorInput] throws, and for one inside it
    returns a tuple. *)
Theorem invalid_key_thrown :
  validateOptions [("constructor", JStr "x")] [("name", JBool true)]
    = Thrown (TypeError "Cannot read properties of undefined (reading 'map')") /\
  (forall op v, ~ In op operator_vocabulary -> exists e, validateOperatorInput op v = Thrown e) /\
  (forall op v, In op operator_vocabulary -> exists r, validateOperatorInput op v = Normal r).
Proof.
  split; [reflexivity | split].
  - intros op v Hn. unfold validateOperatorInput.
    destruct (validator_at op) as [z| |] eqn:E.
    + exfalso. exact (Hn (validator_at_own_vocabulary op z E)).
    + eexists; reflexivity.
    + eexists; reflexivity.
  - intros op v Hin. destruct (validator_of_vocabulary op Hin) as (z & Hz & _).
    unfold validateOperatorInput. rewrite Hz.
    destruct (zparse z v); eexists; reflexivity.
Qed.

(** Claim C8 (code bug): a known field with value [null] makes
    [Object.keys(null)] throw, so a payload made of a known field is not
    answered [[true, null]]; and the key [constructor], neither a field nor
    an operator, is not answered [[null, 'Invalid key: constructor']].  A key
    that is neither a field nor any property of [sequelizeOperatorValidators]
    is answered [[null, 'Invalid key: <key>']], as long as
    [nestedFilterMap.hasOwnProperty] is the method of [Object.prototype]. *)
Theorem invalid_key_outcomes :
  validateOptions [("name", JNull)] [("name", JBool true)]
    = Thrown (TypeError "Cannot convert undefined or null to object") /\
  validateOptions [("constructor", JStr "x")] [("name", JBool true)]
    <> Normal (invalid_key "constructor") /\
  (forall nestedFilterMap key value rest,
     hasOwnProperty_callable nestedFilterMap = true ->
     has_own (own nestedFilterMap) key = false -> validator_at key = Undefined ->
     validateOptions_loop nestedFilterMap ((key, value) :: rest) = Normal (invalid_key key)).
Proof.
  split; [reflexivity | split].
  - intros H. vm_compute in H. discriminate H.
  - intros nfm key value rest Hc Hf Hu. simpl. unfold hasOwnProperty_call. rewrite Hc, Hf, Hu.
    reflexivity.
Qed.

(** ** C10 *)

Lemma loop_entries_skip {S : Type} (body : string * nat -> S -> run S)
  (s1 s2 : list (string * nat)) (e : string * nat) (s : S) :
  (forall s0, body e s0 = Ok s0) ->
  loop_entries body (s1 ++ e :: s2) s = loop_entries body (s1 ++ s2) s.
Proof.
  intros He. revert s. induction s1 as [|e1 s1 IH]; intros s; simpl.
  - rewrite He. reflexivity.
  - destruct (body e1 s); simpl; auto.
Qed.

(** Claim C10: a lazy child whose getter throws leaves the state of
    [getFilterable] and [getPath] unchanged, so the loop over the shape
    behaves as if the child were absent and goes on with its siblings. *)
Theorem throwing_lazy_skipped (h : heap) (k : string) (v : nat)
  (goF : nat -> visited_set -> run (record tree * visited_set))
  (goP : nat -> list string -> visited_set -> run (record string * visited_set))
  (parentKey : list string) (s1 s2 : list (string * nat))
  (stF : record tree * visited_set) (stP : record string * visited_set) :
  n_kind (node_at h v) = ZodLazy None ->
  getFilterable_entry goF h (k, v) stF = Ok stF /\
  getPath_entry goP h parentKey (k, v) stP = Ok stP /\
  loop_entries (getFilterable_entry goF h) (s1 ++ (k, v) :: s2) stF
    = loop_entries (getFilterable_entry goF h) (s1 ++ s2) stF /\
  loop_entries (getPath_entry goP h parentKey) (s1 ++ (k, v) :: s2) stP
    = loop_entries (getPath_entry goP h parentKey) (s1 ++ s2) stP.
Proof.
  intros Hl.
  assert (HF : forall s0, getFilterable_entry goF h (k, v) s0 = Ok s0).
  { intros [a b]. unfold getFilterable_entry. cbv zeta. rewrite Hl. reflexivity. }
  assert (HP : forall s0, getPath_entry goP h parentKey (k, v) s0 = Ok s0).
  { intros [a b]. unfold getPath_entry. cbv zeta. rewrite Hl. reflexivity. }
  split; [apply HF | split; [apply HP | split]]; apply loop_entries_skip; assumption.
Qed.

Lemma throwing_lazy_skipped_witness :
  n_kind (node_at throwing_lazy_heap 1) = ZodLazy None /\
  getFilterable 3 throwing_lazy_heap 2 [] [] = Ok ([("a", TTrue); ("c", TTrue)], [2]) /\
  getPath 3 throwing_lazy_heap 2 [] [] [] = Ok ([("a", "a"); ("c", "c")], [2]).
Proof.
  destruct (throwing_lazy_skipped throwing_lazy_heap "b" 1
              (fun c V => getFilterable 2 throwing_lazy_heap c V [2])
              (fun c pk V => getPath 2 throwing_lazy_heap c pk V [2])
              [] [("a", 0)] [("c", 0)] ([], [2]) ([], [2]) eq_refl) as (_ & _ & HF & HP).
  split; [reflexivity | split].
  - change (loop_entries (getFilterable_entry (fun c V => getFilterable 2 throwing_lazy_heap c V [2])
              throwing_lazy_heap) ([("a", 0)] ++ ("b", 1) :: [("c", 0)]) ([], [2])
            = Ok ([("a", TTrue); ("c", TTrue)], [2])).
    rewrite HF. reflexivity.
  - change (loop_entries (getPath_entry (fun c pk V => getPath 2 throwing_lazy_heap c pk V [2])
              throwing_lazy_heap []) ([("a", 0)] ++ ("b", 1) :: [("c", 0)]) ([], [2])
            = Ok ([("a", "a"); ("c", "c")], [2])).
    rewrite HP. reflexivity.
Defined.

(** ** C9 *)

(** Claim C9 (code bug): the index misses dotted keys the specification
    requires.  The alias target [email] of a root leaf is not mapped to
    itself, and the leaf [a.b.c] two levels down has no entry under its
    dotted key (only [c], [b.c] and [a.c]): a leaf without alias is written
    under [paths[key]], while an aliased leaf is written under its full
    dotted key.  The dotted key of a leaf one level down is present
    ([profile.firstName] in the README example). *)
Theorem getPath_leaf_entries_missing :
  getPath 3 alias_root_heap 1 [] [] [] = Ok ([("mail", "email")], [1]) /\
  getPath 5 deep_heap 3 [] [] [] = Ok ([("c", "a.b.c"); ("a.c", "a.b.c"); ("b.c", "a.b.c")], [1; 2; 3]) /\
  getPath 4 readme_heap 2 [] [] [] =
    Ok ([("id", "id"); ("username", "username"); ("email", "email");
         ("firstName", "profile.firstName"); ("profile.firstName", "profile.firstName");
         ("lastName", "profile.lastName"); ("profile.lastName", "profile.lastName")], [1; 2]).
Proof. split; [|split]; reflexivity. Qed.

(** ** getPath on a flat schema *)

Lemma in_keys_assign {A} (x k : string) (v : A) (r : record A) :
  In x (map fst (assign k v r)) -> x = k \/ In x (map fst r).
Proof.
  induction r as [|[k' v'] r IH]; simpl.
  - intros [H | []]. left. symmetry. exact H.
  - destruct (String.eqb k k') eqn:E; simpl.
    + apply String.eqb_eq in E. subst k'. intros [H | H]; [left; symmetry; exact H | right; right; exact H].
    + intros [H | H]; [right; left; exact H |].
      destruct (IH H) as [H' | H']; [left; exact H' | right; right; exact H'].
Qed.

Lemma in_keys_js_set {A} (x k : string) (v : A) (r : record A) :
  In x (map fst (js_set k v r)) -> x = k \/ In x (map fst r).
Proof.
  destruct (js_set_cases k v r) as [-> | ->]; [intros H; right; exact H | apply in_keys_assign].
Qed.

Lemma getPath_entry_leaf go h k v p W :
  composite_child h v = None -> n_kind (node_at h v) <> ZodLazy None ->
  getPath_entry go h [] (k, v) (p, W) = Ok (js_set k (path_leaf_target h k v) p, W).
Proof.
  intros Hc Hl. unfold getPath_entry, path_leaf_target, composite_child in *. cbv zeta in *.
  assert (Hleaf : (if n_ext (node_at h v) && isPath (node_at h v) then
                     match d_path (n_desc (node_at h v)) with
                     | Some pathValue => Ok (js_set (join ([] ++ [k])) (join ([] ++ pathValue)) p, W)
                     | None => Ok (p, W)
                     end
                   else Ok (js_set k (join ([] ++ [k])) p, W))
                  = Ok (js_set k (if n_ext (node_at h v) && isPath (node_at h v) then
                                    match d_path (n_desc (node_at h v)) with
                                    | Some ps => join ps | None => k end
                                  else k) p, W)).
  { unfold isPath. destruct (n_ext (node_at h v)), (d_path (n_desc (node_at h v))); reflexivity. }
  destruct (n_kind (node_at h v)) as [sh | t | [lv|] | ] eqn:Ek.
  - discriminate.
  - destruct (is_object (node_at h t)); [discriminate | exact Hleaf].
  - destruct (n_kind (node_at h lv)) as [sh' | t' | o' | ] eqn:El; try discriminate;
      try exact Hleaf.
    destruct (is_object (node_at h t')); [discriminate | exact Hleaf].
  - contradiction.
  - exact Hleaf.
Qed.

(** For a root whose children are all leaves (no object, array of objects
    or lazy getter resolving to one, and no throwing getter), with distinct
    keys, getPath maps each child's key other than ["__proto__"] to the key
    itself, or to its path alias joined with '.' when it declares one, and
    has no entry under any other key: an alias target that is not a key of
    the schema is not mapped to itself. *)
Theorem getPath_flat_schema (h : heap) (f root : nat) (st : list nat)
  (res : record string) (V : visited_set) :
  getPath (S f) h root [] [] st = Ok (res, V) ->
  NoDup (map fst (shape_of (node_at h root))) ->
  (forall k v, In (k, v) (shape_of (node_at h root)) ->
     composite_child h v = None /\ n_kind (node_at h v) <> ZodLazy None) ->
  (forall k v, In (k, v) (shape_of (node_at h root)) -> k <> "__proto__" ->
     lookup k res = Some (path_leaf_target h k v)) /\
  (forall x, In x (map fst res) -> In x (map fst (shape_of (node_at h root)))).
Proof.
  intros Hr Hnd Hleaf. simpl in Hr. destruct (mem root st); [discriminate|].
  set (go := fun c pk W => getPath f h c pk W (root :: st)) in Hr.
  split.
  - intros k v Hin Hkp. pose proof Hin as Hin'. apply in_split in Hin' as (s1 & s2 & Hs).
    rewrite Hs in Hr, Hnd.
    destruct (NoDup_keys_split s1 s2 k v Hnd) as [_ H2].
    apply loop_entries_split in Hr as ([a Wa] & b & _ & Hb & Hc).
    destruct (Hleaf k v Hin) as [Hc1 Hc2].
    rewrite (getPath_entry_leaf go h k v a Wa Hc1 Hc2) in Hb. injection Hb as <-.
    refine (eq_trans (loop_entries_frame fst k _ s2 _ (res, V) _ Hc) _).
    + intros [k' v'] [p0 W0] s3 Hine He.
      assert (Hk'v' : In (k', v') (shape_of (node_at h root)))
        by (rewrite Hs; apply in_or_app; right; right; exact Hine).
      destruct (Hleaf k' v' Hk'v') as [Hc1' Hc2'].
      rewrite (getPath_entry_leaf go h k' v' p0 W0 Hc1' Hc2') in He. injection He as <-.
      simpl. rewrite lookup_js_set.
      assert (E : String.eqb k k' = false).
      { apply String.eqb_neq. intros <-. exact (H2 _ Hine eq_refl). }
      rewrite E. reflexivity.
    + simpl. rewrite lookup_js_set, String.eqb_refl. unfold sets_own.
      apply String.eqb_neq in Hkp. rewrite Hkp. reflexivity.
  - refine (loop_entries_preserve_in
              (fun s => forall x, In x (map fst (fst s)) -> In x (map fst (shape_of (node_at h root))))
              _ _ _ (res, V) _ _ Hr).
    + intros [k' v'] [p0 W0] s3 Hine Hs0 He.
      destruct (Hleaf k' v' Hine) as [Hc1' Hc2'].
      rewrite (getPath_entry_leaf _ h k' v' p0 W0 Hc1' Hc2') in He. injection He as <-.
      intros x Hx. simpl in Hx. destruct (in_keys_js_set x k' _ p0 Hx) as [-> | Hx'].
      * apply in_map_iff. exists (k', v'). auto.
      * exact (Hs0 x Hx').
    + intros x [].
Qed.

Lemma getPath_flat_schema_witness :
  getPath 3 flat_path_heap 2 [] [] [] = Ok ([("name", "name"); ("mail", "email")], [2]) /\
  lookup "mail" [("name", "name"); ("mail", "email")] = Some "email" /\
  ~ In "email" (map fst [("name", "name"); ("mail", "email")]).
Proof.
  assert (Hr : getPath 3 flat_path_heap 2 [] [] [] = Ok ([("name", "name"); ("mail", "email")], [2]))
    by reflexivity.
  assert (Hnd : NoDup (map fst (shape_of (node_at flat_path_heap 2))))
    by (simpl; repeat constructor; simpl; intuition discriminate).
  assert (Hl : forall k v, In (k, v) (shape_of (node_at flat_path_heap 2)) ->
                 composite_child flat_path_heap v = None /\ n_kind (node_at flat_path_heap v) <> ZodLazy None).
  { intros k v Hin. simpl in Hin.
    destruct Hin as [[= <- <-] | [[= <- <-] | []]]; split; try reflexivity; discriminate. }
  destruct (getPath_flat_schema flat_path_heap 2 2 [] _ _ Hr Hnd Hl) as [Hlk Hkeys].
  split; [exact Hr | split].
  - apply (Hlk "mail" 1); [simpl; auto | discriminate].
  - intros H. apply Hkeys in H. simpl in H. intuition discriminate.
Defined.

(** * Further properties of the code *)

(** ** setNestedKey and dotToNestedObject *)

Lemma last_cons_default (a : string) (l : list string) (d d' : string) :
  last (a :: l) d = last (a :: l) d'.
Proof.
  revert a. induction l as [|b l IH]; intros a; [reflexivity|].
  change (last (b :: l) d = last (b :: l) d'). apply IH.
Qed.

Lemma set_nested_from_get (rest : list string) :
  forall current key o', set_nested_from current key rest = SetDone o' ->
  last (key :: rest) key <> "__proto__" ->
  get_in (key :: rest) (JObj o') = Some (JBool true) /\
  (forall x, x <> key -> lookup x o' = lookup x current).
Proof.
  induction rest as [|key' rest' IH]; intros current key o' Hs Hl.
  - simpl in Hs, Hl. injection Hs as <-. unfold set_true, js_set, sets_own.
    assert (E : String.eqb key "__proto__" = false) by (apply String.eqb_neq; exact Hl).
    rewrite E. simpl. rewrite lookup_assign, String.eqb_refl. split; [reflexivity|].
    intros x Hx. rewrite lookup_assign.
    assert (E' : String.eqb x key = false) by (apply String.eqb_neq; exact Hx). rewrite E'. reflexivity.
  - assert (Hl' : last (key' :: rest') key' <> "__proto__").
    { rewrite (last_cons_default key' rest' key' key). exact Hl. }
    assert (Hinto : forall o, (match set_nested_from o key' rest' with
                               | SetDone o'' => SetDone (assign key (JObj o'') current)
                               | LeavesObject => LeavesObject end) = SetDone o' ->
              get_in (key :: key' :: rest') (JObj o') = Some (JBool true) /\
              (forall x, x <> key -> lookup x o' = lookup x current)).
    { intros o Ho. destruct (set_nested_from o key' rest') as [o''|] eqn:E; [|discriminate].
      injection Ho as <-. destruct (IH o key' o'' E Hl') as [Hg _]. split.
      - simpl. rewrite lookup_assign, String.eqb_refl. exact Hg.
      - intros x Hx. rewrite lookup_assign.
        assert (E' : String.eqb x key = false) by (apply String.eqb_neq; exact Hx). rewrite E'. reflexivity. }
    simpl in Hs. destruct (read_prop current key) as [v| |].
    + destruct v; try (apply (Hinto _ Hs));
        match type of Hs with
        | (if ?b then _ else _) = _ => destruct b; [discriminate | apply (Hinto _ Hs)]
        end.
    + discriminate.
    + apply (Hinto _ Hs).
Qed.

(** [setNestedKey(obj, path, true)], when its walk stays within [obj] and
    the last key is not [__proto__], makes [true] reachable along [path]
    and leaves every other top-level key of [obj] as it was. *)
Theorem setNestedKey_get_after_set (obj : record jsval) (key : string) (rest : list string)
  (obj' : record jsval) :
  setNestedKey obj (key :: rest) = SetDone obj' ->
  last (key :: rest) key <> "__proto__" ->
  get_in (key :: rest) (JObj obj') = Some (JBool true) /\
  (forall x, x <> key -> lookup x obj' = lookup x obj).
Proof. apply set_nested_from_get. Qed.

Lemma setNestedKey_get_after_set_witness :
  setNestedKey [("a", JObj [("c", JNum 1%Z)]); ("d", JBool false)] ["a"; "b"]
    = SetDone [("a", JObj [("c", JNum 1%Z); ("b", JBool true)]); ("d", JBool false)] /\
  get_in ["a"; "b"] (JObj [("a", JObj [("c", JNum 1%Z); ("b", JBool true)]); ("d", JBool false)])
    = Some (JBool true) /\
  lookup "d" [("a", JObj [("c", JNum 1%Z); ("b", JBool true)]); ("d", JBool false)] = Some (JBool false).
Proof.
  assert (Hs : setNestedKey [("a", JObj [("c", JNum 1%Z)]); ("d", JBool false)] ["a"; "b"]
                 = SetDone [("a", JObj [("c", JNum 1%Z); ("b", JBool true)]); ("d", JBool false)])
    by reflexivity.
  destruct (setNestedKey_get_after_set _ "a" ["b"] _ Hs ltac:(discriminate)) as [Hg Hf].
  split; [exact Hs | split; [exact Hg |]].
  rewrite (Hf "d" ltac:(discriminate)). reflexivity.
Defined.

Lemma fold_left_rev_wrap (l : list string) (value : jsval) :
  fold_left (fun acc key => JObj [(key, acc)]) (rev l) value = nested_of l value.
Proof.
  induction l as [|key l IH]; [reflexivity|].
  simpl. rewrite fold_left_app, IH. reflexivity.
Qed.

Lemma split_dot_aux_not_nil (s cur : string) : split_dot_aux s cur <> [].
Proof.
  revert cur. induction s as [|c s IH]; intros cur; simpl; [discriminate|].
  destruct (Ascii.eqb c "."%char); [discriminate | apply IH].
Qed.

Lemma dotToNestedObject_nested (s : string) (value : jsval) :
  s <> "" -> dotToNestedObject s value = nested_of (split_dot s) (default_true value).
Proof.
  intros Hs. unfold dotToNestedObject.
  assert (E : String.eqb s "" = false) by (apply String.eqb_neq; exact Hs).
  rewrite E. apply fold_left_rev_wrap.
Qed.

Lemma get_in_nested_of (path : list string) (value : jsval) :
  get_in path (nested_of path value) = Some value.
Proof.
  induction path as [|key rest IH]; [reflexivity|].
  simpl. rewrite String.eqb_refl. exact IH.
Qed.

(** [dotToNestedObject(s, value)] puts [value] at the end of the path
    [s.split('.')], [true] when [value] is [undefined], and gives [{}] for
    the empty string. *)
Theorem dotToNestedObject_get (s : string) (value : jsval) :
  dotToNestedObject "" value = JObj [] /\
  (s <> "" -> get_in (split_dot s) (dotToNestedObject s value) = Some (default_true value)).
Proof.
  split; [reflexivity|]. intros Hs. rewrite dotToNestedObject_nested by exact Hs.
  apply get_in_nested_of.
Qed.

Lemma set_nested_from_empty (rest : list string) :
  forall key, Forall (fun k => existsb (String.eqb k) object_prototype_keys = false) (key :: rest) ->
  set_nested_from [] key rest = SetDone [(key, nested_of rest (JBool true))].
Proof.
  induction rest as [|key' rest' IH]; intros key Hk; inversion Hk as [|? ? Hkey Hrest]; subst.
  - simpl. unfold set_true, js_set, sets_own.
    assert (E : String.eqb key "__proto__" = false).
    { apply String.eqb_neq. intros ->. discriminate Hkey. }
    rewrite E. reflexivity.
  - cbn -[existsb object_prototype_keys]. rewrite Hkey. rewrite (IH key' Hrest). reflexivity.
Qed.

(** On an empty object, [setNestedKey(obj, s.split('.'), true)] builds the
    object [dotToNestedObject(s)] builds, when no segment of [s] is a
    property name of [Object.prototype]. *)
Theorem setNestedKey_as_dotToNestedObject (s : string) :
  s <> "" ->
  Forall (fun k => existsb (String.eqb k) object_prototype_keys = false) (split_dot s) ->
  exists obj, setNestedKey [] (split_dot s) = SetDone obj /\ dotToNestedObject s (JBool true) = JObj obj.
Proof.
  intros Hs Hk. rewrite dotToNestedObject_nested by exact Hs.
  destruct (split_dot s) as [|key rest] eqn:E.
  - exfalso. exact (split_dot_aux_not_nil s "" E).
  - exists [(key, nested_of rest (JBool true))]. split; [|reflexivity].
    apply set_nested_from_empty. exact Hk.
Qed.

Lemma setNestedKey_as_dotToNestedObject_witness :
  setNestedKey [] (split_dot "a.b.c") = SetDone [("a", JObj [("b", JObj [("c", JBool true)])])] /\
  dotToNestedObject "a.b.c" (JBool true) = JObj [("a", JObj [("b", JObj [("c", JBool true)])])].
Proof.
  destruct (setNestedKey_as_dotToNestedObject "a.b.c" ltac:(discriminate)
              ltac:(repeat constructor)) as (obj & H1 & H2).
  assert (E : obj = [("a", JObj [("b", JObj [("c", JBool true)])])]).
  { rewrite (dotToNestedObject_nested "a.b.c" (JBool true) ltac:(discriminate)) in H2.
    injection H2 as H2. symmetry. exact H2. }
  rewrite E in H1, H2. split; assumption.
Defined.

(** ** nestedToDotObject *)

Lemma string_app_empty_r (s : string) : (s ++ "")%string = s.
Proof. induction s as [|c s IH]; simpl; [reflexivity | rewrite IH; reflexivity]. Qed.

Lemma string_app_assoc (a b c : string) : ((a ++ b) ++ c)%string = (a ++ (b ++ c))%string.
Proof. induction a as [|x a IH]; simpl; [reflexivity | rewrite IH; reflexivity]. Qed.

Lemma join_split_dot_aux (s : string) :
  forall cur, join (split_dot_aux s cur) = (cur ++ s)%string.
Proof.
  induction s as [|c s IH]; intros cur; simpl.
  - rewrite string_app_empty_r. reflexivity.
  - destruct (Ascii.eqb c "."%char) eqn:E.
    + apply Ascii.eqb_eq in E. subst c. unfold join in *.
      destruct (split_dot_aux s "") as [|y ys] eqn:Es.
      * exfalso. exact (split_dot_aux_not_nil s "" Es).
      * change (String.concat "." (cur :: y :: ys)) with (cur ++ "." ++ String.concat "." (y :: ys))%string.
        rewrite <- Es, IH. reflexivity.
    + rewrite IH, string_app_assoc. reflexivity.
Qed.

(** [s.split('.').join('.') === s] *)
Lemma join_split_dot (s : string) : join (split_dot s) = s.
Proof. apply join_split_dot_aux. Qed.

(** [nestedToDotObject] undoes [dotToNestedObject] for a key of one or two
    segments, other than ["__proto__"], and a value that is neither an
    object nor a [Date]: the result has the one own key, with the value
    ([true] for [undefined], the parameter's default), and its prototype is
    untouched. *)
Theorem nestedToDotObject_dotToNestedObject (s : string) (value : jsval) :
  s <> "" -> s <> "__proto__" -> length (split_dot s) <= 2 ->
  (forall props, value <> JObj props) -> value <> JDate ->
  exists props, dotToNestedObject s value = JObj props /\
    nestedToDotObject props = {| own := [(s, default_true value)]; null_proto := false |}.
Proof.
  intros Hs Hp Hlen Hobj Hdate. rewrite dotToNestedObject_nested by exact Hs.
  pose proof (join_split_dot s) as Hj.
  apply String.eqb_neq in Hp.
  assert (Hdv : match default_true value with JObj _ | JDate => False | _ => True end).
  { destruct value; simpl; try exact I; [exact (Hdate eq_refl) | exact (Hobj _ eq_refl)]. }
  destruct (split_dot s) as [|a [|b [|c rest]]] eqn:E.
  - exfalso. exact (split_dot_aux_not_nil s "" E).
  - exists [(a, default_true value)]. split; [reflexivity|].
    unfold join in Hj. simpl in Hj. subst a.
    unfold nestedToDotObject. simpl.
    destruct (default_true value); try contradiction;
      unfold set_prop; simpl; rewrite Hp; reflexivity.
  - exists [(a, JObj [(b, default_true value)])]. split; [reflexivity|].
    unfold join in Hj. simpl in Hj.
    unfold nestedToDotObject. simpl. rewrite Hj.
    unfold set_prop; simpl; rewrite Hp; reflexivity.
  - simpl in Hlen. lia.
Qed.

Lemma nestedToDotObject_dotToNestedObject_witness :
  dotToNestedObject "profile.bio" (JStr "x") = JObj [("profile", JObj [("bio", JStr "x")])] /\
  nestedToDotObject [("profile", JObj [("bio", JStr "x")])] =
    {| own := [("profile.bio", JStr "x")]; null_proto := false |}.
Proof.
  destruct (nestedToDotObject_dotToNestedObject "profile.bio" (JStr "x") ltac:(discriminate)
              ltac:(discriminate) ltac:(simpl; lia) ltac:(discriminate) ltac:(discriminate))
    as (props & H1 & H2).
  assert (E : props = [("profile", JObj [("bio", JStr "x")])]).
  { rewrite (dotToNestedObject_nested "profile.bio" (JStr "x") ltac:(discriminate)) in H1.
    injection H1 as H1. symmetry. exact H1. }
  rewrite E in H1, H2. split; assumption.
Defined.

Lemma set_prop_has_own (key x : string) (value : jsval) (o : plain_object) :
  x <> "__proto__" ->
  has_own (own (set_prop key value o)) x = String.eqb x key || has_own (own o) x.
Proof.
  intros Hx. unfold set_prop.
  destruct (String.eqb key "__proto__") eqn:Ek; simpl.
  - apply String.eqb_eq in Ek. subst key. apply String.eqb_neq in Hx. rewrite Hx.
    destruct (negb (has_own (own o) "__proto__") && negb (null_proto o)).
    + destruct value; reflexivity.
    + simpl. rewrite has_own_assign, Hx. reflexivity.
  - rewrite has_own_assign. reflexivity.
Qed.

Lemma nestedToDotObject_has_own_aux (obj : list (string * jsval)) :
  forall x r0, x <> "__proto__" ->
  has_own (own (fold_left
    (fun result (kv : string * jsval) =>
       let '(key, value) := kv in
       match value with
       | JObj props =>
           fold_left (fun r (nkv : string * jsval) =>
                        set_prop (key ++ "." ++ fst nkv)%string (snd nkv) r) props result
       | JDate => result
       | _ => set_prop key value result
       end) obj r0)) x = has_own (own r0) x || existsb (dot_keys_of x) obj.
Proof.
  induction obj as [|[key value] obj IH]; intros x r0 Hx; simpl.
  - rewrite orb_false_r. reflexivity.
  - rewrite (IH x _ Hx). rewrite orb_assoc. f_equal.
    destruct value as [| |b|z|s| |items|props]; simpl;
      try (rewrite (set_prop_has_own _ _ _ _ Hx);
           destruct (String.eqb x key), (has_own (own r0) x); reflexivity).
    + rewrite orb_false_r. reflexivity.
    + revert r0. induction props as [|[nk nv] props IHp]; intros r0; simpl.
      * rewrite orb_false_r. reflexivity.
      * rewrite IHp, (set_prop_has_own _ _ _ _ Hx).
        btauto.
Qed.

(** The own keys of [nestedToDotObject(obj)], ["__proto__"] apart: the key
    of every entry whose value is neither an object nor a [Date], and
    [key.nestedKey] for every key of an object value; an empty object or a
    [Date] contributes no key. *)
Theorem nestedToDotObject_keys (obj : list (string * jsval)) (x : string) :
  x <> "__proto__" ->
  has_own (own (nestedToDotObject obj)) x = true <->
  exists key value, In (key, value) obj /\
    match value with
    | JObj props => exists nk nv, In (nk, nv) props /\ x = (key ++ "." ++ nk)%string
    | JDate => False
    | _ => x = key
    end.
Proof.
  intros Hx.
  unfold nestedToDotObject. rewrite (nestedToDotObject_has_own_aux obj x _ Hx). simpl.
  rewrite existsb_exists. split.
  - intros ([key value] & Hin & Hd). exists key, value. split; [exact Hin|].
    destruct value; simpl in Hd; try (apply String.eqb_eq; exact Hd); try discriminate.
    apply existsb_exists in Hd as ([nk nv] & Hin' & He). apply String.eqb_eq in He.
    exists nk, nv. auto.
  - intros (key & value & Hin & Hd). exists (key, value). split; [exact Hin|].
    destruct value; simpl; try (apply String.eqb_eq; exact Hd); try contradiction.
    destruct Hd as (nk & nv & Hin' & ->). apply existsb_exists. exists (nk, nv).
    split; [exact Hin' | apply String.eqb_refl].
Qed.

Lemma nestedToDotObject_keys_witness :
  has_own (own (nestedToDotObject [("name", JObj [("first", JStr "a")]); ("age", JNum 3)]))
    "name.first" = true /\
  exists key value, In (key, value) [("name", JObj [("first", JStr "a")]); ("age", JNum 3)] /\
    match value with
    | JObj props => exists nk nv, In (nk, nv) props /\ "name.first"%string = (key ++ "." ++ nk)%string
    | JDate => False
    | _ => "name.first"%string = key
    end.
Proof.
  pose proof (nestedToDotObject_keys [("name", JObj [("first", JStr "a")]); ("age", JNum 3)]
                "name.first" ltac:(discriminate)) as H.
  assert (Hown : has_own (own (nestedToDotObject [("name", JObj [("first", JStr "a")]); ("age", JNum 3)]))
    "name.first" = true) by reflexivity.
  split; [exact Hown | apply H; exact Hown].
Defined.

(** ** validateOptions *)

Lemma validateOptions_loop_throws (nfm : plain_object) (e : string * jsval)
  (rest : list (string * jsval)) :
  hasOwnProperty_callable nfm = false ->
  validateOptions_loop nfm (e :: rest) = Thrown hasOwnProperty_error.
Proof.
  intros Hc. destruct e as [key value]. simpl. unfold hasOwnProperty_call. rewrite Hc. reflexivity.
Qed.

Lemma validateOptions_loop_accepted (nfm : plain_object) (e : string * jsval)
  (rest : list (string * jsval)) :
  hasOwnProperty_callable nfm = true ->
  entry_accepted nfm e = true -> validateOptions_loop nfm (e :: rest) = validateOptions_loop nfm rest.
Proof.
  intros Hc. destruct e as [key value]. unfold entry_accepted. simpl.
  unfold hasOwnProperty_call. rewrite Hc.
  unfold validateOperatorInput.
  destruct (validator_at key) as [z| |]; simpl; rewrite ?andb_false_r.
  - destruct (zparse z value); [reflexivity | discriminate].
  - discriminate.
  - intros H. apply andb_true_iff in H as [Hown Hv]. rewrite Hown. simpl.
    destruct value; try discriminate; simpl; try reflexivity;
      repeat match goal with |- context [if ?b then _ else _] => destruct b end; reflexivity.
Qed.

Lemma validateOptions_loop_rejected (nfm : plain_object) (e : string * jsval)
  (rest : list (string * jsval)) :
  hasOwnProperty_callable nfm = true ->
  entry_accepted nfm e = false ->
  validateOptions_loop nfm (e :: rest) = validateOptions_loop nfm [e] /\
  validateOptions_loop nfm [e] <> Normal Success.
Proof.
  intros Hc. destruct e as [key value]. unfold entry_accepted. simpl.
  unfold hasOwnProperty_call. rewrite Hc.
  unfold validateOperatorInput.
  destruct (validator_at key) as [z| |]; simpl; rewrite ?andb_false_r.
  - destruct (zparse z value); [discriminate|]. intros _. split; [reflexivity | discriminate].
  - intros _. split; [reflexivity | discriminate].
  - intros H. destruct (has_own (own nfm) key); simpl in *.
    + destruct value; try discriminate; simpl; split; try reflexivity; discriminate.
    + split; [reflexivity | discriminate].
Qed.

(** While [nestedFilterMap.hasOwnProperty] is the method of
    [Object.prototype], [validateOptions] answers [[true, null]] exactly
    when every entry of the filter is accepted: an operator with an operand
    its schema takes, or a key of the flattened field map, not a property of
    the operator table, whose value is neither [null] nor [undefined]; the
    value of such a field is never looked into.  When the flattened map has
    an own [hasOwnProperty] field or a [null] prototype, any non-empty
    filter makes [validateOptions] throw a [TypeError]. *)
Theorem validateOptions_success_iff (clientFilter filterMap : list (string * jsval)) :
  (hasOwnProperty_callable (nestedToDotObject filterMap) = true ->
   (validateOptions clientFilter filterMap = Normal Success <->
    forallb (entry_accepted (nestedToDotObject filterMap)) clientFilter = true)) /\
  (hasOwnProperty_callable (nestedToDotObject filterMap) = false -> clientFilter <> [] ->
   validateOptions clientFilter filterMap = Thrown hasOwnProperty_error).
Proof.
  unfold validateOptions. generalize (nestedToDotObject filterMap) as nfm. intros nfm.
  split.
  - intros Hc.
    induction clientFilter as [|e rest IH]; [simpl; split; reflexivity|].
    cbn [forallb]. destruct (entry_accepted nfm e) eqn:E; cbn [andb].
    + rewrite (validateOptions_loop_accepted nfm e rest Hc E). exact IH.
    + destruct (validateOptions_loop_rejected nfm e rest Hc E) as [-> Hne].
      split; [intros H; contradiction | discriminate].
  - intros Hc Hne. destruct clientFilter as [|e rest]; [contradiction|].
    apply validateOptions_loop_throws; exact Hc.
Qed.

(** The first entry of the filter that is not accepted decides the outcome
    of [validateOptions]: the entries after it are never looked at, and the
    outcome is not [[true, null]]. *)
Theorem validateOptions_first_rejected (pre post : list (string * jsval)) (e : string * jsval)
  (filterMap : list (string * jsval)) :
  forallb (entry_accepted (nestedToDotObject filterMap)) pre = true ->
  entry_accepted (nestedToDotObject filterMap) e = false ->
  validateOptions (pre ++ e :: post) filterMap = validateOptions [e] filterMap /\
  validateOptions [e] filterMap <> Normal Success.
Proof.
  unfold validateOptions. generalize (nestedToDotObject filterMap) as nfm. intros nfm Hpre He.
  destruct (hasOwnProperty_callable nfm) eqn:Hc.
  - destruct (validateOptions_loop_rejected nfm e post Hc He) as [Hl Hne].
    split; [|exact Hne].
    induction pre as [|e0 pre IH]; cbn [forallb app] in *; [exact Hl|].
    apply andb_true_iff in Hpre as [H0 Hpre].
    rewrite (validateOptions_loop_accepted nfm e0 (pre ++ e :: post) Hc H0). exact (IH Hpre).
  - rewrite (validateOptions_loop_throws nfm e [] Hc).
    split; [|discriminate].
    destruct pre as [|e0 pre]; apply validateOptions_loop_throws; exact Hc.
Qed.

Lemma validateOptions_first_rejected_witness :
  validateOptions [("name", JStr "x"); ("title", JNum 1%Z); ("like", JStr "a%")] [("name", JBool true)]
    = Normal (invalid_key "title").
Proof.
  destruct (validateOptions_first_rejected [("name", JStr "x")] [("like", JStr "a%")]
              ("title", JNum 1%Z) [("name", JBool true)] eq_refl eq_refl) as [H _].
  refine (eq_trans H _). reflexivity.
Defined.

(** ** Keys written by the traversals *)

Lemma lookup_in_keys {A} (x : string) (r : record A) :
  In x (map fst r) <-> lookup x r <> None.
Proof.
  induction r as [|[k v] r IH]; simpl; [split; [intros [] | intros H; exact (H eq_refl)]|].
  destruct (String.eqb x k) eqn:E.
  - apply String.eqb_eq in E. subst. split; [discriminate | auto].
  - apply String.eqb_neq in E. rewrite <- IH. split; [intros [H | H]; [congruence | exact H] | auto].
Qed.

Lemma keys_from_frame {A} (x key : string) (r0 r1 : record A) :
  (key <> x -> lookup x r1 = lookup x r0) ->
  In x (map fst r1) -> x = key \/ In x (map fst r0).
Proof.
  intros Hf Hin. destruct (String.eqb key x) eqn:E.
  - left. apply String.eqb_eq in E. symmetry. exact E.
  - right. apply String.eqb_neq in E. apply lookup_in_keys. rewrite <- (Hf E).
    apply lookup_in_keys. exact Hin.
Qed.

Lemma loop_entries_keys {S A : Type} (get : S -> record A) (body : string * nat -> S -> run S)
  (entries : list (string * nat)) (s s' : S) :
  (forall e s0 s1, In e entries -> body e s0 = Ok s1 ->
     forall x, In x (map fst (get s1)) -> x = fst e \/ In x (map fst (get s0))) ->
  loop_entries body entries s = Ok s' ->
  forall x, In x (map fst (get s')) -> In x (map fst entries) \/ In x (map fst (get s)).
Proof.
  revert s. induction entries as [|e rest IH]; intros s Hb Hl x Hx; simpl in Hl.
  - injection Hl as <-. right. exact Hx.
  - destruct (body e s) as [s1| |m] eqn:E; simpl in Hl; try discriminate.
    destruct (IH s1 (fun e0 s0 s2 Hin => Hb e0 s0 s2 (or_intror Hin)) Hl x Hx) as [H | H].
    + left. right. exact H.
    + destruct (Hb e s s1 (or_introl eq_refl) E x H) as [-> | H']; [left; left; reflexivity | right; exact H'].
Qed.

Lemma lookup_not_in {A} (x : string) (r : record A) : ~ In x (map fst r) -> lookup x r = None.
Proof.
  intros H. destruct (lookup x r) eqn:E; [|reflexivity].
  exfalso. apply H. apply lookup_in_keys. rewrite E. discriminate.
Qed.

(** A key of a shape with distinct keys is not a key of its prefix. *)
Lemma NoDup_key_not_in_prefix (s1 s2 : list (string * nat)) (k : string) (v : nat) :
  NoDup (map fst (s1 ++ (k, v) :: s2)) -> ~ In k (map fst s1).
Proof.
  intros Hnd Hin. apply in_map_iff in Hin as ([k' v'] & Heq & Hin). simpl in Heq. subst k'.
  destruct (NoDup_keys_split s1 s2 k v Hnd) as [H1 _]. exact (H1 _ Hin eq_refl).
Qed.

(** getSortable writes only keys of the schema's shape, and a direct
    non-object child appears, as [true], exactly when it is extended and
    flagged sortable and its key is not ["__proto__"] (that assignment goes
    to the inherited setter and adds no key): a path alias plays no role in
    getSortable. *)
Theorem getSortable_leaf_keys (h : heap) (f n : nat) (st : list nat) (res : record tree) :
  getSortable (S f) h n st = Ok res ->
  (forall x, In x (map fst res) -> In x (map fst (shape_of (node_at h n)))) /\
  (NoDup (map fst (shape_of (node_at h n))) ->
   forall k v, In (k, v) (shape_of (node_at h n)) -> is_object (node_at h v) = false ->
     lookup k res = if n_ext (node_at h v) && isSortable (node_at h v) && negb (String.eqb k "__proto__")
                    then Some TTrue else None).
Proof.
  intros Hr. simpl in Hr. destruct (mem n st); [discriminate|].
  set (go := fun c => getSortable f h c (n :: st)) in Hr.
  assert (Hkeys : forall entries s s', loop_entries (getSortable_entry go h) entries s = Ok s' ->
            forall x, In x (map fst s') -> In x (map fst entries) \/ In x (map fst s)).
  { intros entries s s' Hl. refine (loop_entries_keys (fun r => r) _ entries s s' _ Hl).
    intros e s0 s1 _ He x Hx. apply (keys_from_frame x (fst e) s0 s1); [|exact Hx].
    intros Hne. exact (getSortable_entry_frame go h x e s0 s1 Hne He). }
  split.
  - intros x Hx. destruct (Hkeys _ _ _ Hr x Hx) as [H | []]. exact H.
  - intros Hnd k v Hin Hobj. apply in_split in Hin as (s1 & s2 & Hs). rewrite Hs in Hr, Hnd.
    apply loop_entries_split in Hr as (acc1 & acc2 & Ha & Hb & Hc).
    assert (H1 : lookup k acc1 = None).
    { apply lookup_not_in. intros Hk. destruct (Hkeys _ _ _ Ha k Hk) as [H | []].
      exact (NoDup_key_not_in_prefix s1 s2 k v Hnd H). }
    destruct (NoDup_keys_split s1 s2 k v Hnd) as [_ H2].
    rewrite (loop_entries_frame (fun r => r) k _ s2 _ res
               (fun e s0 s3 Hine He => getSortable_entry_frame go h k e s0 s3 (H2 e Hine) He) Hc).
    unfold getSortable_entry in Hb. rewrite Hobj in Hb.
    destruct (n_ext (node_at h v) && isSortable (node_at h v)); injection Hb as <-.
    + rewrite lookup_js_set, String.eqb_refl, (sets_own_fresh k acc1 H1). simpl.
      destruct (negb (String.eqb k "__proto__")); [reflexivity | exact H1].
    + exact H1.
Qed.

Lemma getSortable_leaf_keys_witness :
  getSortable 2 sortable_heap 3 [] = Ok [("name", TTrue); ("tags", TTrue)] /\
  lookup "id" [("name", TTrue); ("tags", TTrue)] = None /\
  lookup "name" [("name", TTrue); ("tags", TTrue)] = Some TTrue.
Proof.
  assert (Hr : getSortable 2 sortable_heap 3 [] = Ok [("name", TTrue); ("tags", TTrue)]) by reflexivity.
  destruct (getSortable_leaf_keys sortable_heap 1 3 [] _ Hr) as [_ Hl].
  assert (Hnd : NoDup (map fst (shape_of (node_at sortable_heap 3))))
    by (simpl; repeat constructor; simpl; intuition discriminate).
  split; [exact Hr | split].
  - exact (Hl Hnd "id" 0 ltac:(simpl; auto) eq_refl).
  - exact (Hl Hnd "name" 1 ltac:(simpl; auto) eq_refl).
Defined.

Lemma getFilterable_entry_leaf go h k v acc W :
  composite_child h v = None -> n_kind (node_at h v) <> ZodLazy None ->
  getFilterable_entry go h (k, v) (acc, W) =
  Ok (if n_ext (node_at h v) && isFilterable (node_at h v) then js_set k TTrue acc else acc, W).
Proof.
  intros Hc Hl. unfold getFilterable_entry, composite_child in *. cbv zeta in *.
  assert (Hleaf : (if n_ext (node_at h v) && isFilterable (node_at h v)
                   then Ok (js_set k TTrue acc, W) else Ok (acc, W))
                  = Ok (if n_ext (node_at h v) && isFilterable (node_at h v)
                        then js_set k TTrue acc else acc, W))
    by (destruct (n_ext (node_at h v) && isFilterable (node_at h v)); reflexivity).
  destruct (n_kind (node_at h v)) as [sh | t | [lv|] | ] eqn:Ek.
  - discriminate.
  - destruct (is_object (node_at h t)); [discriminate | exact Hleaf].
  - destruct (n_kind (node_at h lv)) as [sh' | t' | o' | ] eqn:El; try discriminate;
      try exact Hleaf.
    destruct (is_object (node_at h t')); [discriminate | exact Hleaf].
  - contradiction.
  - exact Hleaf.
Qed.

(** getFilterable writes only keys of the schema's shape, and a direct
    child that is not composite (and not a lazy node whose getter throws)
    appears, as [true], exactly when that node itself is extended and
    flagged filterable and its key is not ["__proto__"]; in particular a lazy node resolving to a flagged
    leaf does not count, since the flag is looked up on the lazy node. *)
Theorem getFilterable_leaf_keys (h : heap) (f n : nat) (V : visited_set) (st : list nat)
  (res : record tree) (V' : visited_set) :
  getFilterable (S f) h n V st = Ok (res, V') -> mem n V = false ->
  (forall x, In x (map fst res) -> In x (map fst (shape_of (node_at h n)))) /\
  (NoDup (map fst (shape_of (node_at h n))) ->
   forall k v, In (k, v) (shape_of (node_at h n)) ->
     composite_child h v = None -> n_kind (node_at h v) <> ZodLazy None ->
     lookup k res = if n_ext (node_at h v) && isFilterable (node_at h v) && negb (String.eqb k "__proto__")
                    then Some TTrue else None).
Proof.
  intros Hr Hm. simpl in Hr. rewrite Hm in Hr. destruct (mem n st); [discriminate|].
  set (go := fun c W => getFilterable f h c W (n :: st)) in Hr.
  assert (Hkeys : forall entries s s', loop_entries (getFilterable_entry go h) entries s = Ok s' ->
            forall x, In x (map fst (fst s')) -> In x (map fst entries) \/ In x (map fst (fst s))).
  { intros entries s s' Hl. refine (loop_entries_keys fst _ entries s s' _ Hl).
    intros e s0 s1 _ He x Hx. apply (keys_from_frame x (fst e) (fst s0) (fst s1)); [|exact Hx].
    intros Hne. exact (getFilterable_entry_frame go h x e s0 s1 Hne He). }
  split.
  - intros x Hx. destruct (Hkeys _ _ (res, V') Hr x Hx) as [H | []]. exact H.
  - intros Hnd k v Hin Hc Hl. apply in_split in Hin as (s1 & s2 & Hs). rewrite Hs in Hr, Hnd.
    apply loop_entries_split in Hr as ([acc1 W1] & b & Ha & Hb & Hcont).
    assert (H1 : lookup k acc1 = None).
    { apply lookup_not_in. intros Hk. destruct (Hkeys _ _ _ Ha k Hk) as [H | []].
      exact (NoDup_key_not_in_prefix s1 s2 k v Hnd H). }
    destruct (NoDup_keys_split s1 s2 k v Hnd) as [_ H2].
    change res with (fst (res, V')).
    rewrite (loop_entries_frame fst k _ s2 _ (res, V')
               (fun e s0 s3 Hine He => getFilterable_entry_frame go h k e s0 s3 (H2 e Hine) He) Hcont).
    rewrite (getFilterable_entry_leaf go h k v acc1 W1 Hc Hl) in Hb. injection Hb as <-. simpl.
    destruct (n_ext (node_at h v) && isFilterable (node_at h v)).
    + rewrite lookup_js_set, String.eqb_refl, (sets_own_fresh k acc1 H1). simpl.
      destruct (negb (String.eqb k "__proto__")); [reflexivity | exact H1].
    + exact H1.
Qed.

Lemma getFilterable_leaf_keys_witness :
  getFilterable 2 lazy_leaf_heap 3 [] [] = Ok ([("name", TTrue)], [3]) /\
  lookup "nick" [("name", TTrue)] = None.
Proof.
  assert (Hr : getFilterable 2 lazy_leaf_heap 3 [] [] = Ok ([("name", TTrue)], [3])) by reflexivity.
  destruct (getFilterable_leaf_keys lazy_leaf_heap 1 3 [] [] _ _ Hr eq_refl) as [_ Hl].
  assert (Hnd : NoDup (map fst (shape_of (node_at lazy_leaf_heap 3))))
    by (simpl; repeat constructor; simpl; intuition discriminate).
  split; [exact Hr|].
  exact (Hl Hnd "nick" 1 ltac:(simpl; auto) eq_refl ltac:(discriminate)).
Defined.

(** ** Path aliases in getQueryable *)

(** In getQueryable a queryable leaf with the alias list [ps] makes every
    alias other than ["__proto__"] a top-level key [true] of its own (the
    list is not a dotted path), unless an object child of the same name
    comes after it; the leaf's own key is then absent when it is not one of
    the aliases and no other child's alias names it, so
    [.queryable().path([])] hides the leaf. *)
Theorem getQueryable_alias_list (h : heap) (f n : nat) (st : list nat) (res : record tree)
  (s1 s2 : list (string * nat)) (k : string) (v : nat) (ps : list string) :
  getQueryable (S f) h n st = Ok res ->
  shape_of (node_at h n) = s1 ++ (k, v) :: s2 ->
  NoDup (map fst (shape_of (node_at h n))) ->
  is_object (node_at h v) = false -> n_ext (node_at h v) = true -> isQueryable (node_at h v) = true ->
  d_path (n_desc (node_at h v)) = Some ps ->
  (forall p, In p ps -> p <> "__proto__" ->
     (forall c', In (p, c') s2 -> is_object (node_at h c') = false) ->
     lookup p res = Some TTrue) /\
  (~ In k ps ->
   (forall k' c' ps', In (k', c') (shape_of (node_at h n)) -> k' <> k ->
      d_path (n_desc (node_at h c')) = Some ps' -> ~ In k ps') ->
   lookup k res = None).
Proof.
  intros Hr Hs Hnd Hobj Hext Hq Hp. simpl in Hr. destruct (mem n st); [discriminate|].
  set (go := fun c => getQueryable f h c (n :: st)) in Hr.
  rewrite Hs in Hr. pose proof Hnd as Hnd'. rewrite Hs in Hnd'.
  destruct (NoDup_keys_split s1 s2 k v Hnd') as [H1 H2].
  apply loop_entries_split in Hr as (acc1 & acc2 & Ha & Hb & Hc).
  unfold getQueryable_entry in Hb. rewrite Hobj, Hext, Hq in Hb. simpl in Hb. rewrite Hp in Hb.
  injection Hb as <-.
  split.
  - intros p Hpin Hpp Hpo.
    refine (loop_entries_preserve_in (fun x => lookup p x = Some TTrue) _ s2 _ res _ _ Hc).
    + intros [k' c'] s0 s3 Hine Hs0 He. apply (getQueryable_entry_keeps_true go h p (k', c') s0 s3);
        [| exact Hs0 | exact He].
      simpl. intros <-. exact (Hpo c' Hine).
    + rewrite lookup_set_aliases.
      assert (E : existsb (String.eqb p) ps = true)
        by (apply existsb_exists; exists p; split; [exact Hpin | apply String.eqb_refl]).
      unfold sets_own. apply String.eqb_neq in Hpp. rewrite E, Hpp. reflexivity.
  - intros Hk Hal.
    assert (Hfr : forall l, (forall e, In e l -> In e (shape_of (node_at h n)) /\ fst e <> k) ->
                  forall e s0 s3, In e l -> getQueryable_entry go h e s0 = Ok s3 -> lookup k s3 = lookup k s0).
    { intros l Hl [k' c'] s0 s3 Hine He. destruct (Hl _ Hine) as [Hsh Hne].
      apply (getQueryable_entry_frame go h k _ s0 s3 Hne); [|exact He].
      intros ps' Hps'. exact (Hal k' c' ps' Hsh Hne Hps'). }
    assert (Hl2 : forall e, In e s2 -> In e (shape_of (node_at h n)) /\ fst e <> k).
    { intros e He. split; [rewrite Hs; apply in_or_app; right; right; exact He | exact (H2 e He)]. }
    assert (Hl1 : forall e, In e s1 -> In e (shape_of (node_at h n)) /\ fst e <> k).
    { intros e He. split; [rewrite Hs; apply in_or_app; left; exact He | exact (H1 e He)]. }
    rewrite (loop_entries_frame (fun x => x) k _ s2 _ res (Hfr s2 Hl2) Hc).
    rewrite lookup_set_aliases.
    assert (E : existsb (String.eqb k) ps = false).
    { destruct (existsb (String.eqb k) ps) eqn:E'; [|reflexivity].
      apply existsb_exists in E' as (p & Hpin & Hpk). apply String.eqb_eq in Hpk. subst p. contradiction. }
    rewrite E.
    exact (loop_entries_frame (fun x => x) k _ s1 [] acc1 (Hfr s1 Hl1) Ha).
Qed.

Lemma getQueryable_alias_list_witness :
  getQueryable 2 alias_list_heap 2 [] = Ok [("firstName", TTrue); ("lastName", TTrue)] /\
  lookup "lastName" [("firstName", TTrue); ("lastName", TTrue)] = Some TTrue /\
  lookup "secret" [("firstName", TTrue); ("lastName", TTrue)] = None.
Proof.
  assert (Hr : getQueryable 2 alias_list_heap 2 [] = Ok [("firstName", TTrue); ("lastName", TTrue)])
    by reflexivity.
  assert (Hnd : NoDup (map fst (shape_of (node_at alias_list_heap 2))))
    by (simpl; repeat constructor; simpl; intuition discriminate).
  destruct (getQueryable_alias_list alias_list_heap 1 2 [] _ [] [("secret", 1)] "name" 0
              ["firstName"; "lastName"] Hr eq_refl Hnd eq_refl eq_refl eq_refl eq_refl) as [Hn _].
  destruct (getQueryable_alias_list alias_list_heap 1 2 [] _ [("name", 0)] [] "secret" 1 []
              Hr eq_refl Hnd eq_refl eq_refl eq_refl eq_refl) as [_ Hs].
  split; [exact Hr | split].
  - apply Hn; [simpl; auto | discriminate |]. intros c' Hc'. simpl in Hc'.
    destruct Hc' as [[=] | []].
  - apply Hs; [intros [] |]. intros k' c' ps' Hin Hne Hps. simpl in Hin.
    destruct Hin as [[= <- <-] | [[= <- <-] | []]]; [|contradiction].
    simpl in Hps. injection Hps as <-. simpl. intuition discriminate.
Defined.

(** ** A sub-schema shared by two keys in getFilterable *)

Lemma getFilterable_visits_self (h : heap) f c W st r W' :
  getFilterable f h c W st = Ok (r, W') -> In c W'.
Proof.
  destruct f as [|f]; simpl; [discriminate|].
  destruct (mem c W) eqn:E.
  - intros H. injection H as _ <-. apply mem_true_iff. exact E.
  - destruct (mem c st); [discriminate|]. intros Hl.
    refine (loop_entries_grows _ h (c :: W) _ _ (r, W') _ _ Hl c (or_introl eq_refl)).
    + intros c0 W0 r0 W0' Hg. exact (getFilterable_grows h f c0 W0 (c :: st) r0 W0' Hg).
    + apply incl_refl.
Qed.

(** getFilterable reports a sub-schema once: when two keys of a shape lead
    to the same composite node, the later key is absent from the result,
    since its node is already in the visited set. *)
Theorem getFilterable_shared_child (h : heap) (f n : nat) (V : visited_set) (st : list nat)
  (res : record tree) (V' : visited_set) (s1 s2 s3 : list (string * nat))
  (k1 k2 : string) (v1 v2 c : nat) :
  getFilterable (S f) h n V st = Ok (res, V') -> mem n V = false ->
  shape_of (node_at h n) = s1 ++ (k1, v1) :: s2 ++ (k2, v2) :: s3 ->
  NoDup (map fst (shape_of (node_at h n))) ->
  composite_child h v1 = Some c -> composite_child h v2 = Some c ->
  lookup k2 res = None.
Proof.
  intros Hr Hm Hs Hnd Hc1 Hc2. simpl in Hr. rewrite Hm in Hr. destruct (mem n st); [discriminate|].
  set (go := fun c W => getFilterable f h c W (n :: st)) in Hr.
  assert (Hgrow : forall c0 W r W', go c0 W = Ok (r, W') -> incl W W')
    by (intros c0 W r W' Hg; exact (getFilterable_grows h f c0 W (n :: st) r W' Hg)).
  assert (Hkeys : forall entries s s', loop_entries (getFilterable_entry go h) entries s = Ok s' ->
            forall x, In x (map fst (fst s')) -> In x (map fst entries) \/ In x (map fst (fst s))).
  { intros entries s s' Hl. refine (loop_entries_keys fst _ entries s s' _ Hl).
    intros e s0 s4 _ He x Hx. apply (keys_from_frame x (fst e) (fst s0) (fst s4)); [|exact Hx].
    intros Hne. exact (getFilterable_entry_frame go h x e s0 s4 Hne He). }
  rewrite Hs in Hr, Hnd.
  replace (s1 ++ (k1, v1) :: s2 ++ (k2, v2) :: s3) with ((s1 ++ (k1, v1) :: s2) ++ (k2, v2) :: s3)
    in Hr, Hnd by (rewrite <- app_assoc; reflexivity).
  apply loop_entries_split in Hr as ([acc W] & b & Ha & Hb & Hcont).
  (* the node [c] is visited once the entry [k1] is done *)
  assert (HcW : In c W).
  { apply loop_entries_split in Ha as ([acc0 W0] & [acc1 W1] & _ & Hb1 & Hs2).
    assert (Hin1 : In c W1).
    { rewrite (getFilterable_entry_composite go h k1 v1 c acc0 W0 Hc1) in Hb1.
      destruct (mem c W0) eqn:E.
      - injection Hb1 as _ <-. apply mem_true_iff. exact E.
      - destruct (go c W0) as [[r W2]| |m] eqn:Eg; simpl in Hb1; try discriminate.
        injection Hb1 as _ <-. exact (getFilterable_visits_self h f c W0 (n :: st) r W2 Eg). }
    exact (loop_entries_grows go h W1 s2 (acc1, W1) (acc, W) Hgrow (incl_refl _) Hs2 c Hin1). }
  rewrite (getFilterable_entry_composite go h k2 v2 c acc W Hc2) in Hb.
  assert (E : mem c W = true) by (apply mem_true_iff; exact HcW). rewrite E in Hb.
  injection Hb as <-.
  destruct (NoDup_keys_split _ s3 k2 v2 Hnd) as [_ H3].
  change res with (fst (res, V')).
  rewrite (loop_entries_frame fst k2 _ s3 _ (res, V')
             (fun e s0 s4 Hine He => getFilterable_entry_frame go h k2 e s0 s4 (H3 e Hine) He) Hcont).
  simpl. apply lookup_not_in. intros Hk. destruct (Hkeys _ _ _ Ha k2 Hk) as [H | []].
  exact (NoDup_key_not_in_prefix _ s3 k2 v2 Hnd H).
Qed.

Lemma getFilterable_shared_child_witness :
  getFilterable 3 shared_child_heap 2 [] [] = Ok ([("home", TObj [("city", TTrue)])], [1; 2]) /\
  lookup "work" [("home", TObj [("city", TTrue)])] = None.
Proof.
  assert (Hr : getFilterable 3 shared_child_heap 2 [] [] = Ok ([("home", TObj [("city", TTrue)])], [1; 2]))
    by reflexivity.
  split; [exact Hr|].
  exact (getFilterable_shared_child shared_child_heap 2 2 [] [] _ _ [] [] [] "home" "work" 1 1 1
           Hr eq_refl eq_refl ltac:(simpl; repeat constructor; simpl; intuition discriminate)
           eq_refl eq_refl).
Defined.

(** ** No traversal stores a key __proto__ *)

Lemma put_nested_no_proto (k : string) (nested acc : record tree) :
  lookup "__proto__" acc = None -> lookup "__proto__" (put_nested k nested acc) = None.
Proof.
  intros H. rewrite lookup_put_nested. destruct (String.eqb "__proto__" k) eqn:E; [|exact H].
  apply String.eqb_eq in E. subst k.
  assert (Hs : sets_own "__proto__" acc = false) by (rewrite (sets_own_fresh _ _ H); reflexivity).
  rewrite Hs, andb_false_r. exact H.
Qed.

Lemma set_aliases_no_proto (ps : list string) (acc : record tree) :
  lookup "__proto__" acc = None -> lookup "__proto__" (set_aliases ps acc) = None.
Proof.
  intros H. rewrite lookup_set_aliases.
  assert (Hs : sets_own "__proto__" acc = false) by (rewrite (sets_own_fresh _ _ H); reflexivity).
  rewrite Hs, andb_false_r. exact H.
Qed.

Lemma fold_left_no_proto {A B} (m : record A -> B -> record A) (l : list B) (p : record A) :
  (forall p0 b, lookup "__proto__" p0 = None -> lookup "__proto__" (m p0 b) = None) ->
  lookup "__proto__" p = None -> lookup "__proto__" (fold_left m l p) = None.
Proof.
  intros Hm. revert p. induction l as [|b l IH]; intros p Hp; simpl; [exact Hp|].
  apply IH, Hm, Hp.
Qed.

Lemma getFilterable_entry_no_proto go h e s s' :
  lookup "__proto__" (fst s) = None -> getFilterable_entry go h e s = Ok s' ->
  lookup "__proto__" (fst s') = None.
Proof.
  destruct e as [key v], s as [acc W]. simpl. intros Hp He.
  unfold getFilterable_entry in He. cbv zeta in He.
  repeat match type of He with
         | context [match ?x with _ => _ end] => destruct x
         end;
  try (injection He as <-; simpl; first [exact Hp | apply js_set_no_proto, Hp]);
  destruct_run_ok; injection He as <-; simpl; apply put_nested_no_proto, Hp.
Qed.

Lemma getSortable_entry_no_proto go h e acc acc' :
  lookup "__proto__" acc = None -> getSortable_entry go h e acc = Ok acc' ->
  lookup "__proto__" acc' = None.
Proof.
  destruct e as [key c]. intros Hp He. unfold getSortable_entry in He.
  destruct (is_object (node_at h c)).
  - destruct_run_ok. injection He as <-. apply put_nested_no_proto, Hp.
  - destruct (n_ext (node_at h c) && isSortable (node_at h c)); injection He as <-;
      [apply js_set_no_proto, Hp | exact Hp].
Qed.

Lemma getQueryable_entry_no_proto go h e acc acc' :
  lookup "__proto__" acc = None -> getQueryable_entry go h e acc = Ok acc' ->
  lookup "__proto__" acc' = None.
Proof.
  destruct e as [key c]. intros Hp He. unfold getQueryable_entry in He.
  destruct (is_object (node_at h c)).
  - destruct_run_ok. injection He as <-. apply put_nested_no_proto, Hp.
  - destruct (n_ext (node_at h c)); destruct (isQueryable (node_at h c)); simpl in He;
      try (injection He as <-; exact Hp).
    destruct (d_path (n_desc (node_at h c))); injection He as <-;
      [apply set_aliases_no_proto, Hp | apply js_set_no_proto, Hp].
Qed.

Lemma getPath_entry_no_proto go h pk e s s' :
  lookup "__proto__" (fst s) = None -> getPath_entry go h pk e s = Ok s' ->
  lookup "__proto__" (fst s') = None.
Proof.
  destruct e as [key v], s as [paths W]. simpl. intros Hp He.
  unfold getPath_entry in He. cbv zeta in He.
  repeat match type of He with
         | context [match ?x with _ => _ end] => destruct x
         end;
  try (injection He as <-; simpl; first [exact Hp | apply js_set_no_proto, Hp]);
  destruct_run_ok; injection He as <-; simpl;
  refine (fold_left_no_proto _ _ _ _ Hp);
  intros p0 b Hp0; repeat apply js_set_no_proto; exact Hp0.
Qed.

(** No result of getFilterable, getSortable, getQueryable or getPath has
    an own key ["__proto__"]: every write of the traversals is a plain
    assignment [obj[key] = ...] on an object created by [{}], and with that
    key it goes to the inherited setter, so a field, a path alias or a
    dotted path named ["__proto__"] leaves no entry. *)
Theorem traversals_no_proto_key (h : heap) (f n : nat) :
  (forall V st res V', getFilterable f h n V st = Ok (res, V') -> lookup "__proto__" res = None) /\
  (forall st res, getSortable f h n st = Ok res -> lookup "__proto__" res = None) /\
  (forall st res, getQueryable f h n st = Ok res -> lookup "__proto__" res = None) /\
  (forall pk V st res V', getPath f h n pk V st = Ok (res, V') -> lookup "__proto__" res = None).
Proof.
  destruct f as [|f]; (split; [|split; [|split]]); intros; simpl in *; try discriminate.
  - destruct (mem n V); [injection H as <- _; reflexivity|].
    destruct (mem n st); [discriminate|].
    change res with (fst (res, V')).
    refine (loop_entries_preserve (fun s => lookup "__proto__" (fst s) = None) _ _ _ _ _ _ H); [|reflexivity].
    intros e s0 s1. apply getFilterable_entry_no_proto.
  - destruct (mem n st); [discriminate|].
    refine (loop_entries_preserve (fun s => lookup "__proto__" s = None) _ _ _ _ _ _ H); [|reflexivity].
    intros e s0 s1. apply getSortable_entry_no_proto.
  - destruct (mem n st); [discriminate|].
    refine (loop_entries_preserve (fun s => lookup "__proto__" s = None) _ _ _ _ _ _ H); [|reflexivity].
    intros e s0 s1. apply getQueryable_entry_no_proto.
  - destruct (mem n V); [injection H as <- _; reflexivity|].
    destruct (mem n st); [discriminate|].
    change res with (fst (res, V')).
    refine (loop_entries_preserve (fun s => lookup "__proto__" (fst s) = None) _ _ _ _ _ _ H); [|reflexivity].
    intros e s0 s1. apply getPath_entry_no_proto.
Qed.

(** ** When nestedFilterMap.hasOwnProperty is not the inherited method *)

Lemma dotted_key_not (a b t : string) :
  (forall i, String.get i t <> Some "."%char) -> (a ++ "." ++ b)%string <> t.
Proof.
  revert t. induction a as [|c a IH]; intros t Ht Heq; destruct t as [|c' t]; try discriminate.
  - simpl in Heq. injection Heq as Hc _. subst c'. exact (Ht 0 eq_refl).
  - simpl in Heq. injection Heq as <- Heq. apply (IH t); [|exact Heq].
    intros i. exact (Ht (S i)).
Qed.

Lemma proto_no_dot : forall i, String.get i "__proto__" <> Some "."%char.
Proof. intros i. do 9 (destruct i as [|i]; [discriminate|]). discriminate. Qed.

Lemma hasOwnProperty_no_dot : forall i, String.get i "hasOwnProperty" <> Some "."%char.
Proof. intros i. do 14 (destruct i as [|i]; [discriminate|]). discriminate. Qed.

(** [result.__proto__] is an own key only once the prototype is [null]. *)
Lemma set_prop_null_proto (key : string) (value : jsval) (o : plain_object) :
  (has_own (own o) "__proto__" = true -> null_proto o = true) ->
  (has_own (own (set_prop key value o)) "__proto__" = true -> null_proto (set_prop key value o) = true) /\
  null_proto (set_prop key value o) =
    null_proto o || (String.eqb key "__proto__" && match value with JNull => true | _ => false end).
Proof.
  intros Hinv. unfold set_prop.
  destruct (String.eqb key "__proto__") eqn:Ek.
  - apply String.eqb_eq in Ek. subst key.
    destruct (has_own (own o) "__proto__") eqn:Ho, (null_proto o) eqn:Hn; simpl;
      [| discriminate (Hinv eq_refl) | |];
      [..| destruct value];
      simpl; rewrite ?Ho, ?Hn; split; first [intros H; first [reflexivity | exact H] | reflexivity].
  - simpl. rewrite has_own_assign, String.eqb_sym, Ek, orb_false_r. simpl.
    split; [exact Hinv | reflexivity].
Qed.

Lemma set_prop_dotted_null_proto (key nk : string) (value : jsval) (o : plain_object) :
  (has_own (own o) "__proto__" = true -> null_proto o = true) ->
  (has_own (own (set_prop (key ++ "." ++ nk) value o)) "__proto__" = true ->
     null_proto (set_prop (key ++ "." ++ nk) value o) = true) /\
  null_proto (set_prop (key ++ "." ++ nk) value o) = null_proto o.
Proof.
  intros Hinv. destruct (set_prop_null_proto (key ++ "." ++ nk) value o Hinv) as [H1 H2].
  split; [exact H1|]. rewrite H2.
  assert (E : String.eqb (key ++ "." ++ nk) "__proto__" = false)
    by (apply String.eqb_neq, dotted_key_not, proto_no_dot).
  rewrite E. apply orb_false_r.
Qed.

Lemma nestedToDotObject_null_proto_aux (obj : list (string * jsval)) :
  forall r0, (has_own (own r0) "__proto__" = true -> null_proto r0 = true) ->
  let r := fold_left
    (fun result (kv : string * jsval) =>
       let '(key, value) := kv in
       match value with
       | JObj props =>
           fold_left (fun r (nkv : string * jsval) =>
                        set_prop (key ++ "." ++ fst nkv)%string (snd nkv) r) props result
       | JDate => result
       | _ => set_prop key value result
       end) obj r0 in
  (has_own (own r) "__proto__" = true -> null_proto r = true) /\
  null_proto r = null_proto r0 ||
    existsb (fun kv => String.eqb (fst kv) "__proto__" &&
                       match snd kv with JNull => true | _ => false end) obj.
Proof.
  induction obj as [|[key value] obj IH]; intros r0 Hinv; simpl.
  - rewrite orb_false_r. split; [exact Hinv | reflexivity].
  - assert (Hstep : forall r1,
      (has_own (own r1) "__proto__" = true -> null_proto r1 = true) ->
      null_proto r1 = null_proto r0 ||
        (String.eqb key "__proto__" && match value with JNull => true | _ => false end) ->
      let r := fold_left
        (fun result (kv : string * jsval) =>
           let '(key, value) := kv in
           match value with
           | JObj props =>
               fold_left (fun r (nkv : string * jsval) =>
                            set_prop (key ++ "." ++ fst nkv)%string (snd nkv) r) props result
           | JDate => result
           | _ => set_prop key value result
           end) obj r1 in
      (has_own (own r) "__proto__" = true -> null_proto r = true) /\
      null_proto r = null_proto r0 ||
        ((String.eqb key "__proto__" && match value with JNull => true | _ => false end) ||
         existsb (fun kv => String.eqb (fst kv) "__proto__" &&
                            match snd kv with JNull => true | _ => false end) obj)).
    { intros r1 Hinv1 Hn1. destruct (IH r1 Hinv1) as [Ha Hb]. split; [exact Ha|].
      rewrite Hb, Hn1, orb_assoc. reflexivity. }
    destruct value as [| |b|z|s| |items|props];
      try (match goal with
           | |- context [set_prop key ?v r0] =>
               destruct (set_prop_null_proto key v r0 Hinv) as [H1 H2]; exact (Hstep _ H1 H2)
           end).
    + apply Hstep; [exact Hinv | simpl; rewrite andb_false_r, orb_false_r; reflexivity].
    + assert (Hinner : forall (ps : list (string * jsval)) r1,
        (has_own (own r1) "__proto__" = true -> null_proto r1 = true) ->
        let r := fold_left (fun r (nkv : string * jsval) =>
                              set_prop (key ++ "." ++ fst nkv)%string (snd nkv) r) ps r1 in
        (has_own (own r) "__proto__" = true -> null_proto r = true) /\ null_proto r = null_proto r1).
      { induction ps as [|[nk nv] ps IHp]; intros r1 Hinv1; simpl; [split; [exact Hinv1 | reflexivity]|].
        destruct (set_prop_dotted_null_proto key nk nv r1 Hinv1) as [H1 H2].
        destruct (IHp _ H1) as [H3 H4]. split; [exact H3 | exact (eq_trans H4 H2)]. }
      destruct (Hinner props r0 Hinv) as [H1 H2]. apply (Hstep _ H1).
      rewrite H2. simpl. rewrite andb_false_r, orb_false_r. reflexivity.
Qed.

(** [nestedFilterMap.hasOwnProperty] stops being the method of
    [Object.prototype] exactly when the filter map has a top-level entry
    [__proto__: null] (the setter makes the prototype [null]) or a top-level
    field [hasOwnProperty] whose value is neither an object nor a [Date]
    (it becomes an own field); nested fields never do, their keys holding a
    dot.  Then [validateOptions] throws on any non-empty filter. *)
Theorem nestedToDotObject_hasOwnProperty (obj : list (string * jsval)) :
  hasOwnProperty_callable (nestedToDotObject obj) = false <->
  In ("__proto__", JNull) obj \/
  exists v, In ("hasOwnProperty", v) obj /\ match v with JObj _ | JDate => False | _ => True end.
Proof.
  unfold hasOwnProperty_callable. rewrite negb_false_iff, orb_true_iff.
  assert (Hn : null_proto (nestedToDotObject obj) = true <-> In ("__proto__", JNull) obj).
  { pose proof (nestedToDotObject_null_proto_aux obj empty_object (fun H => H)) as Haux.
    cbv zeta in Haux. destruct Haux as [_ H].
    unfold nestedToDotObject. rewrite H. simpl. rewrite existsb_exists. split.
    - intros ([k v] & Hin & He). apply andb_true_iff in He as [Hk Hv]. apply String.eqb_eq in Hk.
      simpl in Hk, Hv. subst k. destruct v; try discriminate. exact Hin.
    - intros Hin. exists ("__proto__"%string, JNull). split; [exact Hin | reflexivity]. }
  rewrite (nestedToDotObject_keys obj "hasOwnProperty" ltac:(discriminate)), Hn.
  split.
  - intros [H | H]; [right | left; exact H].
    destruct H as (key & value & Hin & Hv). destruct value; try contradiction;
      try (subst key; eexists; split; [exact Hin | exact I]).
    destruct Hv as (nk & nv & _ & Heq). exfalso. symmetry in Heq.
    exact (dotted_key_not key nk "hasOwnProperty" hasOwnProperty_no_dot Heq).
  - intros [H | H]; [right; exact H | left].
    destruct H as (v & Hin & Hv). exists "hasOwnProperty"%string, v. split; [exact Hin|].
    destruct v; try contradiction; reflexivity.
Qed.
